(** * QM_1D_TI_Numba: the Crank-Nicolson propagator and the wavefunction
      operations of the 1D quantum mechanics applet, over ideal arithmetic.

    The Python module [QM_1D_TI_Numba.py] is embedded function by function.
    Numbers are the elements of an arbitrary algebraically closed numeric
    field [C] (complex128 without rounding); the [f8] arguments are the
    elements of [C] that satisfy [_ \is Num.real].  One-dimensional arrays
    are sequences, two-dimensional arrays are matrices.  Python exceptions
    are the constructors of [exn]; a call returns [Ok v] or [Raise e]. *)

From HB Require Import structures.
From mathcomp Require Import boot order algebra arithmetic_tactic algC.

Set Implicit Arguments.
Unset Strict Implicit.
Unset Printing Implicit Defensive.

Import Order.TTheory GRing.Theory Num.Theory.
Local Open Scope ring_scope.

(** ** Exceptions and results *)

Inductive exn : Type :=
  | ZeroDivisionError   (* a scalar division by zero in compiled or plain code *)
  | LinAlgError         (* np.linalg.inv on a singular matrix *)
  | UnboundLocalError   (* a local read before any branch assigned it *)
  | ValueError          (* shape mismatch, empty reduction, bad probabilities *)
  | IndexError          (* a checked index past the end, in interpreted code *)
  | FloatingPointError  (* a float operation, when numpy is set to raise *)
  | UncheckedRead.      (* an index past the end of a buffer, or a product of
                           arrays of unequal lengths, in nopython code: numba
                           compiles the read without a bounds check, so what
                           is read is not determined by the program *)

Inductive result (A : Type) : Type :=
  | Ok of A
  | Raise of exn.

Arguments Raise {A} e.

Definition bind {A B : Type} (c : result A) (k : A -> result B) : result B :=
  match c with
  | Ok a => k a
  | Raise e => Raise e
  end.

Notation "'do' x <- c ; k" := (bind c (fun x => k))
  (at level 200, x name, c at level 100, k at level 200, right associativity).

(** A float, or an array of floats, as the embedding sees it: its ideal
    value, or the mark that it holds an infinity or a NaN. *)
Inductive fl (A : Type) : Type :=
  | Fin of A
  | NonFinite.

Arguments NonFinite {A}.

(** How numpy treats a division by zero or an invalid operation:
    [np.seterr]'s setting.  [err_warn] is numpy's default (a warning is
    printed and the result holds an infinity or a NaN); [err_raise] is the
    state after [np.seterr(all='raise')]. *)
Inductive np_err : Type := err_warn | err_raise.

Definition is_ok {A : Type} (c : result A) : bool :=
  if c is Ok _ then true else false.

(** [for x in r: s = body(x, s)], stopping at the first exception. *)
Fixpoint for_each {S I : Type} (r : seq I) (body : I -> S -> result S) (s : S)
  : result S :=
  match r with
  | [::] => Ok s
  | i :: r' => do s' <- body i s; for_each r' body s'
  end.

(** ** [class Constants] *)

Module Constants.
Record t (C : Type) : Type := Make {
  m : C;        (* mass *)
  hbar : C;     (* reduced Planck constant *)
  e : C;        (* charge *)
  x0 : C;       (* initial position *)
  L : C;        (* length of the box *)
  N : nat;      (* number of spatial steps *)
  dx : C;       (* space stepsize *)
  dt : C;       (* time stepsize *)
  _scale : C    (* factor applied to the potential *)
}.
End Constants.

(** ** The attributes of the two classes *)

Module Wavefunction_1D.
Record t (C : Type) : Type := Make {
  consts : Constants.t C;   (* the attributes inherited from Constants *)
  x : seq C                 (* wavefunction in the position basis *)
}.
End Wavefunction_1D.

Module Unitary_Operator_1D.
Record t (C : Type) : Type := Make {
  consts : Constants.t C;
  U : 'M[C]_(Constants.N consts);   (* unitary time evolution matrix *)
  I : 'M[C]_(Constants.N consts)    (* identity matrix *)
}.
End Unitary_Operator_1D.

Section Numerics.

Variable C : numClosedFieldType.
Implicit Types (V x y : seq C) (N n : nat).

(** ** Scalar and array primitives *)

(** Division of scalars: in nopython code (and in plain Python) a zero
    divisor raises. *)
Definition py_div (a b : C) : result C :=
  if b == 0 then Raise ZeroDivisionError else Ok (a / b).

(** [V[i]] inside a compiled function. *)
Definition getitem V (i : nat) : result C :=
  if (i < size V)%N then Ok (nth 0 V i) else Raise UncheckedRead.

(** [M[i][j] = v] on an N x N array. *)
Definition setitem N (M : 'M[C]_N) (i j : 'I_N) (v : C) : 'M[C]_N :=
  \matrix_(a, b) if (a == i) && (b == j) then v else M a b.

(** [np.linalg.inv]. *)
Definition np_linalg_inv N (A : 'M[C]_N) : result 'M[C]_N :=
  if A \in unitmx then Ok (invmx A) else Raise LinAlgError.

(** ** [_construct_U] *)

(** The body of the inner loop, for one pair [(i, l)]. *)
Definition construct_body N V (a1 a2 b1 b2 J : C) (i l : 'I_N)
    (AB : 'M[C]_N * 'M[C]_N) : result ('M[C]_N * 'M[C]_N) :=
  let: (A, B) := AB in
  if i == l then
    do Vi <- getitem V i;
    let A := setitem A i l (a1 + J * Vi) in
    let B := setitem B i l (b1 - J * Vi) in
    Ok (A, B)
  else if (l : nat) == i.+1 then
    let A := setitem A i l a2 in
    let A := setitem A l i a2 in
    let B := setitem B i l b2 in
    let B := setitem B l i b2 in
    Ok (A, B)
  else Ok (A, B).

(** The two nested loops over [range(N)], from the zero matrices. *)
Definition construct_AB N V (a1 a2 b1 b2 J : C)
  : result ('M[C]_N * 'M[C]_N) :=
  for_each (enum 'I_N)
    (fun i => for_each (enum 'I_N) (construct_body V a1 a2 b1 b2 J i))
    (0, 0).

Definition _construct_U V (m hbar : C) N (dx dt : C) : result 'M[C]_N :=
  do K <- py_div (dt * 'i * hbar) (4 * m * dx ^+ 2);
  do J <- py_div (dt * 'i) (2 * hbar);
  let a1 := 1 + 2 * K in
  let a2 := - K in
  let b1 := 1 - 2 * K in
  let b2 := K in
  do AB <- construct_AB N V a1 a2 b1 b2 J;
  do Ainv <- np_linalg_inv AB.1;
  Ok (Ainv *m AB.2).

(** The matrices of the specification: tridiagonal, with diagonal [d i]
    and both first off-diagonals equal to [o]. *)
Definition tridiag N (d : nat -> C) (o : C) : 'M[C]_N :=
  \matrix_(a, b)
    if a == b then d a
    else if ((b : nat) == a.+1) || ((a : nat) == b.+1) then o
    else 0.

Definition spec_K (m hbar dx dt : C) : C := (dt * 'i * hbar) / (4 * m * dx ^+ 2).
Definition spec_J (hbar dt : C) : C := (dt * 'i) / (2 * hbar).

Definition spec_A N V (m hbar dx dt : C) : 'M[C]_N :=
  tridiag N (fun i => (1 + 2 * spec_K m hbar dx dt) + spec_J hbar dt * nth 0 V i)
          (- spec_K m hbar dx dt).

Definition spec_B N V (m hbar dx dt : C) : 'M[C]_N :=
  tridiag N (fun i => (1 - 2 * spec_K m hbar dx dt) - spec_J hbar dt * nth 0 V i)
          (spec_K m hbar dx dt).

(** [_time_evolve_wavefunction]: [np.dot(U, psix)]. *)
Definition _time_evolve_wavefunction N (U : 'M[C]_N) (psix : 'cV[C]_N)
  : 'cV[C]_N := U *m psix.

(** Conjugate transpose, and the squared Euclidean norm of a vector. *)
Definition dagger m n (M : 'M[C]_(m, n)) : 'M[C]_(n, m) :=
  \matrix_(i, j) (M j i)^*.

Definition norm2 n (psi : 'cV[C]_n) : C := \sum_i `|psi i 0| ^+ 2.

Definition vnorm n (psi : 'cV[C]_n) : C := sqrtC (norm2 psi).

Definition real_seq (V : seq C) : bool := all (fun v => v \is Num.real) V.

(** [Constants.__init__]: the attribute values the constructor assigns. *)
Definition Constants__init__ : Constants.t C :=
  let m := 1 in
  let hbar := 1 in
  let e := 1 in
  let x0 := - (1 / 2) in
  let L := 1 in
  let N := 512%N in
  let dx := L / N%:R in
  let dt := 1 / 10 ^+ 5 in
  let _scale := (128 / N%:R) * (5 * 10 ^+ 5) in
  Constants.Make m hbar e x0 L N dx dt _scale.

(** [Constants._get_constants]. *)
Definition _get_constants (self : Constants.t C) :=
  (Constants.m self, Constants.hbar self, Constants.e self,
   Constants.L self, Constants.N self, Constants.dx self, Constants.dt self).

(** The configurations the specification calls valid. *)
Definition valid_GridConfig (g : Constants.t C) : bool :=
  [&& 0 < Constants.m g, 0 < Constants.hbar g, 0 < Constants.L g,
      (2 <= Constants.N g)%N,
      Constants.dx g == Constants.L g / (Constants.N g)%:R,
      Constants.dt g \is Num.real & Constants.dt g != 0].

(** [np.linspace(start, stop, num)], end point included: [num] samples
    [start + i * step] with [step = (stop - start) / (num - 1)], the last
    one then overwritten with [stop]. *)
Definition linspace (start stop : C) (num : nat) : seq C :=
  let step := (stop - start) / (num.-1)%:R in
  mkseq (fun i => if (1 < num)%N && (i == num.-1) then stop
                  else start + i%:R * step) num.

(** The grid both constructors sample a callable on. *)
Definition grid (self : Constants.t C) : seq C :=
  linspace (Constants.x0 self) (Constants.L self + Constants.x0 self)
           (Constants.N self).

(** ** [class Unitary_Operator_1D] *)

(** The argument of the constructor: an array, a callable, or anything
    else. *)
Inductive potential : Type :=
  | PotentialArray of seq C
  | PotentialCallable of (C -> C)
  | PotentialOther.

(** [Unitary_Operator_1D.__init__], after [super().__init__()] has set the
    attributes [self].  The matrix has [self.N] rows, the [N] that
    [_get_constants] returns. *)
Definition Unitary_Operator_1D__init__with (self : Constants.t C)
    (Potential : potential) : result (Unitary_Operator_1D.t C) :=
  do V <- match Potential with
          | PotentialArray a => Ok a
          | PotentialCallable f => Ok [seq f xi | xi <- grid self]
          | PotentialOther => Raise UnboundLocalError
          end;
  let V := [seq v * Constants._scale self | v <- V] in
  let: (m, hbar, e, L, N, dx, dt) := _get_constants self in
  do U <- _construct_U V m hbar (Constants.N self) dx dt;
  Ok (@Unitary_Operator_1D.Make C self U 1%:M).


(** ** numpy primitives used by [Wavefunction_1D] *)

(** [a / t] for an array [a] and a scalar [t]. *)
Definition np_true_divide (err : np_err) (a : seq C) (t : C)
  : result (fl (seq C)) :=
  if (t == 0) && (a != [::]) then
    match err with
    | err_raise => Raise FloatingPointError
    | err_warn => Ok NonFinite
    end
  else Ok (Fin [seq v / t | v <- a]).

(** [np.trapz(y, dx=d)]: [(d * (y[1:] + y[:-1]) / 2.0).sum()]. *)
Definition trapz (y : seq C) (d : C) : C :=
  \sum_(0 <= i < (size y).-1) d * (nth 0 y i.+1 + nth 0 y i) / 2.

(** [np.max] of a one-dimensional array. *)
Definition np_max (a : seq C) : result C :=
  match a with
  | [::] => Raise ValueError
  | v :: a' => Ok (foldl Num.max v a')
  end.

(** [np.sum] and [np.dot] of one-dimensional arrays. *)
Definition np_sum (a : seq C) : C := \sum_(v <- a) v.

Definition np_dot (a b : seq C) : result C :=
  if size a == size b then Ok (\sum_(0 <= i < size a) nth 0 a i * nth 0 b i)
  else Raise ValueError.

(** [np.dot(a, E)] for a one-dimensional [a] and a two-dimensional [E]. *)
Definition np_dot_mx r c (a : seq C) (E : 'M[C]_(r, c)) : result (seq C) :=
  if size a == r then
    Ok [seq \sum_(j < r) nth 0 a j * E j k | k <- enum 'I_c]
  else Raise ValueError.

(** [np.abs(a)**2]. *)
Definition abs2 (a : seq C) : seq C := [seq `|v| ^+ 2 | v <- a].

(** The renormalisation the four measurement methods share:
    [if np.max(prob) != 0.: prob = prob/np.sum(prob)]. *)
Definition renormalize (err : np_err) (prob : seq C) : result (fl (seq C)) :=
  do mx <- np_max prob;
  if mx != 0 then np_true_divide err prob (np_sum prob) else Ok (Fin prob).

(** [np.random.choice(a=a, size=1, p=p, replace=False)[0]], given the one
    uniform variate [u] in [[0, 1)] it takes from the generator:
    [cdf = np.cumsum(p); cdf /= cdf[-1]; cdf.searchsorted(u, side='right')].
    On the sorted [cdf] this is the first index whose entry exceeds [u]. *)
Definition cumsum (p : seq C) : seq C := scanl +%R 0 p.

Definition searchsorted_right (cdf : seq C) (u : C) : nat :=
  find (fun c => u < c) cdf.

Definition choice_index (p : seq C) (u : C) : nat :=
  let cdf := cumsum p in
  let cdf := [seq c / last 0 cdf | c <- cdf] in
  searchsorted_right cdf u.

Definition np_random_choice (A : Type) (a : seq A) (p : seq C) (u : C)
  : result A :=
  match a with
  | [::] => Raise ValueError                     (* a must be non-empty *)
  | a0 :: _ =>
    if size p != size a then Raise ValueError    (* a and p differ in size *)
    else if ~~ all (fun q => 0 <= q) p then Raise ValueError
    else if np_sum p != 1 then Raise ValueError  (* p does not sum to 1 *)
    else let k := choice_index p u in
         if (k < size a)%N then Ok (nth a0 a k) else Raise IndexError
  end.

(** The discrete Fourier transform of numpy.  The constant [np.pi] and the
    function [theta |-> exp(i*theta)] are not algebraic: they are taken as
    they come. *)
Variable pi : C.
Variable expi : C -> C.

Definition np_fft_fft (a : seq C) : result (seq C) :=
  let n := size a in
  if n == 0%N then Raise ValueError
  else Ok (mkseq (fun k => \sum_(0 <= j < n)
                    nth 0 a j * expi (- (2 * pi * j%:R * k%:R / n%:R))) n).

Definition np_fft_ifft (a : seq C) : result (seq C) :=
  let n := size a in
  if n == 0%N then Raise ValueError
  else Ok (mkseq (fun j => (\sum_(0 <= k < n)
                    nth 0 a k * expi (2 * pi * j%:R * k%:R / n%:R)) / n%:R) n).

(** [np.fft.fftfreq(n, d)]: [val = 1.0/(n*d)], the integers
    [0 .. (n-1)//2] followed by [-(n//2) .. -1], times [val]. *)
Definition np_fft_fftfreq (n : nat) (d : C) : result (seq C) :=
  do val <- py_div 1 (n%:R * d);
  let N := (n.-1 %/ 2).+1 in
  let results := mkseq (fun k => if (k < N)%N then k%:R
                                 else - (n %/ 2)%:R + (k - N)%:R) n in
  Ok [seq r * val | r <- results].

(** [a / t] for two numpy scalars. *)
Definition np_scalar_divide (err : np_err) (a t : C) : result (fl C) :=
  if t == 0 then
    match err with
    | err_raise => Raise FloatingPointError
    | err_warn => Ok NonFinite
    end
  else Ok (Fin (a / t)).

(** [np.dot] of two arrays of the given sizes, either of which may hold
    a NaN. *)
Definition np_dot_fl (na nb : nat) (a b : fl (seq C)) : result (fl C) :=
  if na != nb then Raise ValueError
  else match a, b with
       | Fin a, Fin b => do v <- np_dot a b; Ok (Fin v)
       | _, _ => Ok NonFinite
       end.

(** ** [class Wavefunction_1D] *)

(** The argument of the constructor.  A callable receives the whole grid
    and returns the array of samples.  (Any other value leaves [self.x]
    unset; such objects are not part of the embedding.) *)
Inductive waveform_arg : Type :=
  | WaveformCallable of (seq C -> seq C)
  | WaveformArray of seq C.

Definition Wavefunction_1D__init__with (self : Constants.t C)
    (waveform : waveform_arg) : Wavefunction_1D.t C :=
  match waveform with
  | WaveformCallable f => Wavefunction_1D.Make self (f (grid self))
  | WaveformArray a => Wavefunction_1D.Make self a
  end.

Definition Wavefunction_1D__init__ (waveform : waveform_arg)
  : Wavefunction_1D.t C :=
  Wavefunction_1D__init__with Constants__init__ waveform.

(** What a method call leaves behind: its return value or the exception it
    lets through, the object (marked [NonFinite] once [self.x] holds an
    infinity or a NaN), and what it printed. *)
Record run (A : Type) : Type := Run {
  ret : result A;
  self_after : fl (Wavefunction_1D.t C);
  stdout : seq exn
}.

Definition set_x (self : Wavefunction_1D.t C) (a : seq C)
  : Wavefunction_1D.t C :=
  Wavefunction_1D.Make (Wavefunction_1D.consts self) a.

(** [np.trapz(np.conj(self.x)*self.x, dx=self.dx)]. *)
Definition norm_squared (self : Wavefunction_1D.t C) : C :=
  trapz [seq v^* * v | v <- Wavefunction_1D.x self]
        (Constants.dx (Wavefunction_1D.consts self)).

(** [Wavefunction_1D.normalize]. *)
Definition normalize (err : np_err) (self : Wavefunction_1D.t C) : run unit :=
  match np_true_divide err (Wavefunction_1D.x self)
                       (sqrtC (norm_squared self)) with
  | Ok (Fin a) => Run (Ok tt) (Fin (set_x self a)) [::]
  | Ok NonFinite => Run (Ok tt) NonFinite [::]
  | Raise FloatingPointError =>           (* except ...: print(E) *)
      Run (Ok tt) (Fin self) [:: FloatingPointError]
  | Raise E => Run (Raise E) (Fin self) [::]
  end.

(** [prob] as the measurement methods on an eigenbasis compute it. *)
Definition eigen_prob r c (err : np_err) (self : Wavefunction_1D.t C)
    (eigenstates : 'M[C]_(r, c)) : result (fl (seq C)) :=
  do d <- np_dot_mx (Wavefunction_1D.x self) eigenstates;
  renormalize err (abs2 d).

(** [Wavefunction_1D.expectation_value]. *)
Definition expectation_value r c (err : np_err) (self : Wavefunction_1D.t C)
    (eigenvalues : seq C) (eigenstates : 'M[C]_(r, c)) : run (fl C) :=
  match eigen_prob err self eigenstates with
  | Raise FloatingPointError =>           (* except ...: return 0. *)
      Run (Ok (Fin 0)) (Fin self) [::]
  | Raise E => Run (Raise E) (Fin self) [::]
  | Ok prob =>
      Run (np_dot_fl (size eigenvalues) c
                     (Fin [seq 'Re v | v <- eigenvalues]) prob)
          (Fin self) [::]
  end.

(** [F] and [prob] as the two momentum methods compute them. *)
Definition momentum_prob (err : np_err) (self : Wavefunction_1D.t C)
  : result (seq C * fl (seq C)) :=
  do F <- np_fft_fft (Wavefunction_1D.x self);
  do prob <- renormalize err (abs2 F);
  Ok (F, prob).

(** [Wavefunction_1D.expected_momentum]. *)
Definition expected_momentum_value (err : np_err)
    (self : Wavefunction_1D.t C) : result (fl C) :=
  let g := Wavefunction_1D.consts self in
  do Fprob <- momentum_prob err self;
  do freq <- np_fft_fftfreq (Constants.N g) (Constants.dx g);
  do p <- np_true_divide err [seq 2 * pi * f * Constants.hbar g | f <- freq]
                         (Constants.L g);
  np_dot_fl (size freq) (size Fprob.1) p Fprob.2.

Definition expected_momentum (err : np_err) (self : Wavefunction_1D.t C)
  : run (fl C) :=
  Run (expected_momentum_value err self) (Fin self) [::].

(** [np.random.choice] refuses probabilities that hold a NaN. *)
Definition choice_fl (A : Type) (a : seq A) (p : fl (seq C)) (u : C)
  : result A :=
  match p with
  | Fin p => np_random_choice a p u
  | NonFinite => Raise ValueError
  end.

(** [Wavefunction_1D.set_to_momentum_eigenstate]; [u] is the uniform
    variate the draw consumes. *)
Definition set_to_momentum_eigenstate (err : np_err)
    (self : Wavefunction_1D.t C) (u : C) : run (fl C) :=
  let g := Wavefunction_1D.consts self in
  let drawn :=
    do Fprob <- momentum_prob err self;
    do freq <- np_fft_fftfreq (Constants.N g) (Constants.dx g);
    do k <- choice_fl freq Fprob.2 u;
    let freq := [seq (if f != k then 0 else f) | f <- freq] in
    let F := mkseq (fun i => nth 0 freq i * nth 0 Fprob.1 i) (size freq) in
    do a <- np_fft_ifft F;
    Ok (k, a) in
  match drawn with
  | Raise E => Run (Raise E) (Fin self) [::]
  | Ok (k, a) =>
      let r := normalize err (set_x self a) in
      Run (np_scalar_divide err (2 * pi * k * Constants.hbar g)
                            (Constants.L g))
          (self_after r) (stdout r)
  end.

(** Column [k] of a two-dimensional array: [eigenstates.T[[k]][0]]. *)
Definition column r c (E : 'M[C]_(r, c)) (k : nat) : result (seq C) :=
  match insub k : option 'I_c with
  | Some k' => Ok [seq E j k' | j <- enum 'I_r]
  | None => Raise IndexError
  end.

Definition index (a : seq C) (k : nat) : result C :=
  if (k < size a)%N then Ok (nth 0 a k) else Raise IndexError.

(** [Wavefunction_1D.set_to_eigenstate]; [u] is the uniform variate the
    draw consumes. *)
Definition set_to_eigenstate r c (err : np_err) (self : Wavefunction_1D.t C)
    (eigenvalues : seq C) (eigenstates : 'M[C]_(r, c)) (u : C) : run C :=
  let drawn :=
    do prob <- eigen_prob err self eigenstates;
    let a := iota 0 c in
    do k <- choice_fl a prob u;
    do col <- column eigenstates k;
    Ok (k, col) in
  match drawn with
  | Raise E => Run (Raise E) (Fin self) [::]
  | Ok (k, col) =>
      let r := normalize err (set_x self col) in
      Run (index eigenvalues k) (self_after r) (stdout r)
  end.

(** ** The remaining functions of the module *)

(** [_mat_diff]: [s*(A - B)]. *)
Definition _mat_diff N (s : C) (A B : 'M[C]_N) : 'M[C]_N := s *: (A - B).

(** [Unitary_Operator_1D.Set_Hamiltonian]: the value it assigns to
    [self.H].  [ihbar/dt] is a division of Python scalars. *)
Definition Set_Hamiltonian (self : Unitary_Operator_1D.t C)
  : result 'M[C]_(Constants.N (Unitary_Operator_1D.consts self)) :=
  let ihbar := 'i * Constants.hbar (Unitary_Operator_1D.consts self) in
  let dt := Constants.dt (Unitary_Operator_1D.consts self) in
  do s <- py_div ihbar dt;
  Ok (_mat_diff s (Unitary_Operator_1D.U self) (Unitary_Operator_1D.I self)).

(** A one-dimensional array of length [N] as a column, and back. *)
Definition col_of_seq N (a : seq C) : 'cV[C]_N := \col_(i < N) nth 0 a i.
Definition seq_of_col N (v : 'cV[C]_N) : seq C := [seq v i 0 | i <- enum 'I_N].

(** [Unitary_Operator_1D.__call__]: [wavefunction.x] is replaced by
    [np.dot(U, wavefunction.x)].  The product is compiled ([nopython],
    [parallel]) into a loop that makes no shape check: on an array that has
    not as many entries as [U] has columns it returns normally, with entries
    the program does not determine. *)
Definition Unitary_Operator_1D__call__ (self : Unitary_Operator_1D.t C)
    (wavefunction : Wavefunction_1D.t C) : result (Wavefunction_1D.t C) :=
  if size (Wavefunction_1D.x wavefunction) ==
     Constants.N (Unitary_Operator_1D.consts self)
  then Ok (set_x wavefunction
             (seq_of_col (_time_evolve_wavefunction
                            (Unitary_Operator_1D.U self)
                            (col_of_seq _ (Wavefunction_1D.x wavefunction)))))
  else Raise UncheckedRead.

(** [k] successive calls [U(psi)], as the driver loop makes them. *)
Fixpoint evolve (k : nat) (self : Unitary_Operator_1D.t C)
    (wavefunction : Wavefunction_1D.t C) : result (Wavefunction_1D.t C) :=
  match k with
  | 0 => Ok wavefunction
  | k'.+1 => do w <- Unitary_Operator_1D__call__ self wavefunction;
             evolve k' self w
  end.

(** ** Definitions used in the statements below *)

(** What one pass of the loop body does to one of the two matrices. *)
Definition fill_body N (d : nat -> C) (o : C) (i l : 'I_N) (M : 'M[C]_N)
  : 'M[C]_N :=
  if i == l then setitem M i l (d i)
  else if (l : nat) == i.+1 then setitem (setitem M i l o) l i o
  else M.

Definition writes N (i l a b : 'I_N) : bool :=
  if i == l then (a == i) && (b == l)
  else if (l : nat) == i.+1 then
    ((a == i) && (b == l)) || ((a == l) && (b == i))
  else false.

Definition written N (d : nat -> C) (o : C) (a b : 'I_N) : C :=
  if a == b then d a else o.

(** An absorbing potential: one sample with a negative imaginary part. *)
Definition absorbing_potential : seq C := [:: - 'i; 0].

Definition nonneg (a : seq C) : bool := all (fun q => 0 <= q) a.
Definition allzero (a : seq C) : bool := all (fun q => q == 0) a.


(** What [renormalize] returns on an array of non-negative numbers. *)
Definition renormalized (prob : seq C) : seq C :=
  if allzero prob then prob else [seq q / np_sum prob | q <- prob].

(** The probabilities of the eigenbasis methods, before renormalisation. *)
Definition overlaps r c (self : Wavefunction_1D.t C) (E : 'M[C]_(r, c))
  : seq C :=
  [seq `|\sum_(j < r) nth 0 (Wavefunction_1D.x self) j * E j k| ^+ 2
  | k <- enum 'I_c].

(** The sum of the first [k] weights: the left end of the interval of
    variates that select index [k]. *)
Definition prefix (k : nat) (p : seq C) : C := \sum_(q <- take k p) q.

Definition one_hot : seq C := [:: 0; 1; 0].

(** A two-point grid on the unit box, with time step 1 and scale 1. *)
Definition small_grid : Constants.t C :=
  Constants.Make 1 1 1 (- (1 / 2)) 1 2 (1 / 2) 1 1.

End Numerics.

Section LoopTheory.

Variable C : numClosedFieldType.
Implicit Types (V : seq C) (N : nat).

Lemma for_each_ok (S I : Type) (r : seq I) (body : I -> S -> result S)
    (f : I -> S -> S) (s : S) :
  (forall i s', body i s' = Ok (f i s')) ->
  for_each r body s = Ok (foldl (fun s' i => f i s') s r).
Proof.
move=> Hbody; elim: r s => [|i r IH] s //=.
by rewrite Hbody /= IH.
Qed.

Lemma foldl_pair (S T I : Type) (f : I -> S -> S) (g : I -> T -> T)
    (r : seq I) (s : S) (t : T) :
  foldl (fun st i => (f i st.1, g i st.2)) (s, t) r =
  (foldl (fun s' i => f i s') s r, foldl (fun t' i => g i t') t r).
Proof. by elim: r s t => [|i r IH] s t //=. Qed.

Lemma fill_bodyE N d o (i l : 'I_N) (M : 'M[C]_N) a b :
  fill_body d o i l M a b = if writes i l a b then written d o a b else M a b.
Proof.
rewrite /fill_body /writes /written.
case: (altP (i =P l)) => [<-|Hil].
  rewrite mxE; case: (altP (a =P i)) => [->|] //=.
  by case: (altP (b =P i)) => [->|] //=; rewrite eqxx.
case: ifP => Hl; last by [].
rewrite !mxE.
case: (altP (a =P l)) => [->|Hal] /=.
  case: (altP (b =P i)) => [->|Hbi] /=.
    by rewrite eq_sym (negPf Hil) orbT.
  by rewrite eq_sym (negPf Hil) /=.
rewrite orbF; case: (altP (a =P i)) => [->|] //=.
by case: (altP (b =P l)) => [->|] //=; rewrite (negPf Hil).
Qed.

Lemma foldl_writes N (I : Type) (f : I -> 'M[C]_N -> 'M[C]_N) (w : I -> bool)
    (v : C) (a b : 'I_N) (r : seq I) (M : 'M[C]_N) :
  (forall i M', f i M' a b = if w i then v else M' a b) ->
  foldl (fun M' i => f i M') M r a b = if has w r then v else M a b.
Proof.
move=> Hf; elim: r M => [|i r IH] M //=.
by rewrite IH Hf; case: (has w r); case: (w i).
Qed.

Lemma has_writes N (a b : 'I_N) :
  has (fun i => has (fun l => writes i l a b) (enum 'I_N)) (enum 'I_N) =
  [|| a == b, (b : nat) == a.+1 | (a : nat) == b.+1].
Proof.
apply/idP/idP.
  case/hasP=> i _ /hasP [l _]; rewrite /writes.
  case: (altP (i =P l)) => [<- /andP [/eqP -> /eqP ->]|_]; first by rewrite eqxx.
  case: ifP => // /eqP Hl /orP [] /andP [/eqP -> /eqP ->].
    by rewrite Hl eqxx orbT.
  by rewrite Hl eqxx !orbT.
case/or3P => [/eqP <-|Hb|Ha].
- apply/hasP; exists a; rewrite ?mem_enum //.
  by apply/hasP; exists a; rewrite ?mem_enum // /writes !eqxx.
- apply/hasP; exists a; rewrite ?mem_enum //.
  apply/hasP; exists b; rewrite ?mem_enum // /writes Hb !eqxx /=.
  by case: ifP => // /eqP Hab; move: Hb; rewrite Hab -[X in X == _]addn0 -addn1 eqn_add2l.
- apply/hasP; exists b; rewrite ?mem_enum //.
  apply/hasP; exists a; rewrite ?mem_enum // /writes Ha !eqxx /= orbT.
  by case: ifP => // /eqP Hab; move: Ha; rewrite Hab -[X in X == _]addn0 -addn1 eqn_add2l.
Qed.

Lemma fill_loopE N d o :
  foldl (fun M i => foldl (fun M' l => fill_body d o i l M') M (enum 'I_N))
        (0 : 'M[C]_N) (enum 'I_N) = tridiag N d o.
Proof.
apply/matrixP => a b.
have Hin i M : foldl (fun M' l => fill_body d o i l M') M (enum 'I_N) a b =
    if has (fun l => writes i l a b) (enum 'I_N) then written d o a b
    else M a b.
  by apply: foldl_writes => l M'; rewrite fill_bodyE.
rewrite (foldl_writes _ _ Hin).
rewrite has_writes !mxE /written.
by case: (a == b).
Qed.

Lemma construct_bodyE N V a1 a2 b1 b2 J (i l : 'I_N) (AB : 'M[C]_N * 'M[C]_N) :
  (N <= size V)%N ->
  construct_body V a1 a2 b1 b2 J i l AB =
  Ok (fill_body (fun k => a1 + J * nth 0 V k) a2 i l AB.1,
      fill_body (fun k => b1 - J * nth 0 V k) b2 i l AB.2).
Proof.
move=> HN; case: AB => A B; rewrite /construct_body /fill_body /getitem /=.
rewrite (leq_trans (ltn_ord i) HN) /=.
by case: (i == l) => //; case: (_ == _).
Qed.

Lemma construct_ABE N V a1 a2 b1 b2 J :
  (N <= size V)%N ->
  construct_AB N V a1 a2 b1 b2 J =
  Ok (tridiag N (fun k => a1 + J * nth 0 V k) a2,
      tridiag N (fun k => b1 - J * nth 0 V k) b2).
Proof.
move=> HN; rewrite /construct_AB.
pose fA := fill_body (N := N) (fun k => a1 + J * nth 0 V k) a2.
pose fB := fill_body (N := N) (fun k => b1 - J * nth 0 V k) b2.
pose inner (i : 'I_N) (AB : 'M[C]_N * 'M[C]_N) :=
  (foldl (fun M l => fA i l M) AB.1 (enum 'I_N),
   foldl (fun M l => fB i l M) AB.2 (enum 'I_N)).
have Hinner i AB :
    for_each (enum 'I_N) (construct_body V a1 a2 b1 b2 J i) AB = Ok (inner i AB).
  have Hbody l AB' : construct_body V a1 a2 b1 b2 J i l AB' =
      Ok (fA i l AB'.1, fB i l AB'.2) by rewrite construct_bodyE.
  by rewrite (for_each_ok _ _ Hbody); case: AB => A B; rewrite foldl_pair.
rewrite (for_each_ok _ _ Hinner).
rewrite /inner (foldl_pair (fun i M => foldl (fun M' l => fA i l M') M (enum 'I_N))
                 (fun i M => foldl (fun M' l => fB i l M') M (enum 'I_N))).
by rewrite /fA /fB !fill_loopE.
Qed.

End LoopTheory.

Section UnitaryTheory.

Variable C : numClosedFieldType.

Lemma dagger_mul m n p (X : 'M[C]_(m, n)) (Y : 'M[C]_(n, p)) :
  dagger (X *m Y) = dagger Y *m dagger X.
Proof.
apply/matrixP => i j; rewrite !mxE rmorph_sum /=.
by apply: eq_bigr => k _; rewrite !mxE rmorphM /= mulrC.
Qed.

Lemma daggerK m n (X : 'M[C]_(m, n)) : dagger (dagger X) = X.
Proof. by apply/matrixP => i j; rewrite !mxE conjCK. Qed.

Lemma dagger1 n : dagger (1%:M : 'M[C]_n) = 1%:M.
Proof.
apply/matrixP => i j; rewrite !mxE eq_sym.
by case: (i == j); rewrite /= ?rmorph1 ?rmorph0.
Qed.

Lemma dagger0 m n : dagger (0 : 'M[C]_(m, n)) = 0.
Proof. by apply/matrixP => i j; rewrite !mxE rmorph0. Qed.

Lemma dagger_norm2 n (psi : 'cV[C]_n) : dagger psi *m psi = (norm2 psi)%:M.
Proof.
apply/matrixP => i j; rewrite !ord1 !mxE eqxx mulr1n.
by apply: eq_bigr => k _; rewrite !mxE normCK mulrC.
Qed.

Lemma norm2_eq0 n (psi : 'cV[C]_n) : norm2 psi = 0 -> psi = 0.
Proof.
move/eqP; rewrite /norm2 psumr_eq0; first by move=> i _; rewrite exprn_ge0.
move/allP => H; apply/matrixP => i j; rewrite ord1 mxE.
have := H i; rewrite mem_index_enum => /(_ isT) /=.
by rewrite expf_eq0 /= normr_eq0 => /eqP.
Qed.

Lemma posdiag_unit N (A : 'M[C]_N) (d : 'rV[C]_N) :
  (forall i, 0 < d 0 i) -> A + dagger A = diag_mx d -> A \in unitmx.
Proof.
move=> Hd HA; rewrite -row_free_unit -kermx_eq0.
apply/eqP/row_matrixP => i; rewrite row0.
set v := row i (kermx A).
have Hv : v *m A = 0 by rewrite /v -row_mul mulmx_ker row0.
have H1 : v *m A *m dagger v = 0 by rewrite Hv mul0mx.
have H2 : v *m dagger A *m dagger v = 0.
  by have := congr1 (@dagger C _ _) H1; rewrite !dagger_mul daggerK dagger0 mulmxA.
have H3 : v *m diag_mx d *m dagger v = 0.
  by rewrite -HA mulmxDr mulmxDl H1 H2 addr0.
have /eqP : \sum_j d 0 j * `|v 0 j| ^+ 2 = 0.
  have <- : (v *m diag_mx d *m dagger v) 0 0 = \sum_j d 0 j * `|v 0 j| ^+ 2.
    rewrite mxE; apply: eq_bigr => j _.
    by rewrite mul_mx_diag [dagger v j 0]mxE normCK mxE mulrAC mulrC.
  by rewrite H3 mxE.
rewrite psumr_eq0; first by move=> j _; rewrite mulr_ge0 ?exprn_ge0 // ltW.
move/allP => Hall; apply/rowP => j; rewrite [RHS]mxE.
have := Hall j; rewrite mem_index_enum => /(_ isT) /=.
rewrite mulf_eq0 (gt_eqF (Hd j)) /= expf_eq0 /= normr_eq0.
by move/eqP.
Qed.

Lemma dagger_tridiag N (d : nat -> C) (o : C) :
  dagger (tridiag N d o) = tridiag N (fun i => (d i)^*) (o^*).
Proof.
apply/matrixP => a b; rewrite !mxE eq_sym orbC.
case: (altP (a =P b)) => [->|_] //.
by case: (_ || _) => //; rewrite rmorph0.
Qed.

Lemma tridiagD N (d d' : nat -> C) (o o' : C) :
  tridiag N d o + tridiag N d' o' = tridiag N (fun i => d i + d' i) (o + o').
Proof.
apply/matrixP => a b; rewrite !mxE.
by case: (a == b) => //; case: (_ || _) => //; rewrite addr0.
Qed.

Lemma tridiag_diag N (d : nat -> C) :
  tridiag N d 0 = diag_mx (\row_i d i).
Proof.
apply/matrixP => a b; rewrite !mxE.
by case: (a == b); rewrite /= ?mulr1n ?mulr0n //; case: (_ || _).
Qed.

Lemma tridiag_unit N (d : nat -> C) (o : C) :
  o + o^* = 0 -> (forall i, (i < N)%N -> 0 < d i + (d i)^*) ->
  tridiag N d o \in unitmx.
Proof.
move=> Ho Hd; apply: (@posdiag_unit _ _ (\row_i (d i + (d i)^*))).
  by move=> i; rewrite mxE Hd.
by rewrite dagger_tridiag tridiagD Ho tridiag_diag.
Qed.

Lemma cayley_unitary N (A B : 'M[C]_N) :
  A \in unitmx -> dagger A = B -> A + B = 2%:M ->
  dagger (invmx A *m B) *m (invmx A *m B) = 1%:M.
Proof.
move=> HA HAB Hsum.
have HB : B = 2%:M - A by rewrite -Hsum addrC addKr.
have Hcomm : A *m B = B *m A.
  by rewrite HB mulmxBr mulmxBl mul_mx_scalar mul_scalar_mx.
have Hc : invmx A *m B = B *m invmx A.
  rewrite -[LHS]mulmx1 -(mulmxV HA) mulmxA -[_ *m B *m A]mulmxA -Hcomm.
  by rewrite !mulmxA (mulVmx HA) mul1mx.
have HBi : dagger (invmx A) *m B = 1%:M.
  by rewrite -HAB -dagger_mul (mulmxV HA) dagger1.
rewrite dagger_mul -HAB daggerK HAB Hc.
by rewrite mulmxA -[A *m _ *m B]mulmxA HBi mulmx1 (mulmxV HA).
Qed.

Lemma unitary_norm2 N (U : 'M[C]_N) (psi : 'cV[C]_N) :
  dagger U *m U = 1%:M -> norm2 (U *m psi) = norm2 psi.
Proof.
move=> HU.
have : (norm2 (U *m psi))%:M = (norm2 psi)%:M :> 'M[C]_1.
  rewrite -!dagger_norm2 dagger_mul mulmxA -[_ *m dagger U *m U]mulmxA HU.
  by rewrite mulmx1.
by move/(congr1 (fun M : 'M[C]_1 => M 0 0)); rewrite !mxE eqxx !mulr1n.
Qed.

End UnitaryTheory.

Section PropagatorTheory.

Variable C : numClosedFieldType.
Implicit Types (V : seq C) (N : nat) (m hbar dx dt : C).

Lemma py_div_ok (a b : C) : b != 0 -> py_div a b = Ok (a / b).
Proof. by rewrite /py_div => /negPf ->. Qed.

Lemma denom_K_neq0 m dx : m != 0 -> dx != 0 -> 4 * m * dx ^+ 2 != 0.
Proof.
by move=> Hm Hdx; rewrite !mulf_neq0 ?expf_neq0 // (pnatr_eq0 C 4).
Qed.

Lemma denom_J_neq0 hbar : hbar != 0 -> 2 * hbar != 0.
Proof. by move=> Hh; rewrite mulf_neq0 // (pnatr_eq0 C 2). Qed.

Lemma construct_UE V m hbar N dx dt :
  m != 0 -> hbar != 0 -> dx != 0 -> (N <= size V)%N ->
  _construct_U V m hbar N dx dt =
  if spec_A N V m hbar dx dt \in unitmx
  then Ok (invmx (spec_A N V m hbar dx dt) *m spec_B N V m hbar dx dt)
  else Raise LinAlgError.
Proof.
move=> Hm Hh Hdx HN; rewrite /_construct_U.
rewrite (py_div_ok _ (denom_K_neq0 Hm Hdx)) (py_div_ok _ (denom_J_neq0 Hh)) /=.
rewrite construct_ABE //= /np_linalg_inv -/(spec_K m hbar dx dt) -/(spec_J hbar dt).
rewrite -/(spec_A N V m hbar dx dt) -/(spec_B N V m hbar dx dt).
by case: ifP.
Qed.

Lemma spec_K_imag m hbar dx dt :
  spec_K m hbar dx dt = 'i * (dt * hbar / (4 * m * dx ^+ 2)).
Proof. by rewrite /spec_K [dt * 'i]mulrC -!mulrA. Qed.

Lemma spec_J_imag hbar dt : spec_J hbar dt = 'i * (dt / (2 * hbar)).
Proof. by rewrite /spec_J [dt * 'i]mulrC -!mulrA. Qed.

Lemma conj_imag (r : C) : r \is Num.real -> ('i * r)^* = - ('i * r).
Proof. by move=> Hr; rewrite rmorphM /= conjCi (CrealP Hr) mulNr. Qed.

Lemma conj_spec_K m hbar dx dt :
  m \is Num.real -> hbar \is Num.real -> dx \is Num.real ->
  dt \is Num.real -> (spec_K m hbar dx dt)^* = - spec_K m hbar dx dt.
Proof.
move=> Hm Hh Hdx Hdt; rewrite spec_K_imag conj_imag //.
by rewrite !(rpredM, rpredV, rpredX, realn).
Qed.

Lemma conj_spec_JV hbar dt (v : C) :
  hbar \is Num.real -> dt \is Num.real -> v \is Num.real ->
  (spec_J hbar dt * v)^* = - (spec_J hbar dt * v).
Proof.
move=> Hh Hdt Hv; rewrite spec_J_imag -mulrA conj_imag //.
by rewrite !(rpredM, rpredV, realn).
Qed.

Lemma real_nth V i : real_seq V -> nth 0 V i \is Num.real.
Proof.
move=> /allP HV; case: (ltnP i (size V)) => Hi; first exact/HV/mem_nth.
by rewrite nth_default // rpred0.
Qed.

Lemma eq_tridiag N (d d' : nat -> C) (o o' : C) :
  (forall i, (i < N)%N -> d i = d' i) -> o = o' ->
  tridiag N d o = tridiag N d' o'.
Proof. by move=> Hd ->; apply/matrixP => a b; rewrite !mxE Hd. Qed.

Section RealData.

Variables (V : seq C) (N : nat) (m hbar dx dt : C).
Hypothesis Hm : m \is Num.real.
Hypothesis Hh : hbar \is Num.real.
Hypothesis Hdx : dx \is Num.real.
Hypothesis Hdt : dt \is Num.real.
Hypothesis HV : real_seq V.

Lemma dagger_spec_A : dagger (spec_A N V m hbar dx dt) = spec_B N V m hbar dx dt.
Proof.
rewrite /spec_A /spec_B dagger_tridiag; apply: eq_tridiag => [i _|].
  rewrite !rmorphD /= rmorph1 rmorphM /= rmorph_nat conj_spec_K //.
  by rewrite conj_spec_JV ?real_nth // mulrN.
by rewrite rmorphN /= conj_spec_K // opprK.
Qed.

Lemma spec_A_plus_B :
  spec_A N V m hbar dx dt + spec_B N V m hbar dx dt = 2%:M.
Proof.
rewrite /spec_A /spec_B tridiagD addNr tridiag_diag.
rewrite -[2%:M]diag_const_mx; congr diag_mx.
by apply/rowP => i; rewrite !mxE; ring.
Qed.

Lemma spec_A_unit : spec_A N V m hbar dx dt \in unitmx.
Proof.
apply: tridiag_unit => [|i _].
  by rewrite rmorphN /= conj_spec_K // opprK addrC subrr.
rewrite !rmorphD /= rmorph1 rmorphM /= rmorph_nat conj_spec_K //.
rewrite conj_spec_JV ?real_nth //.
have -> : 1 + 2 * spec_K m hbar dx dt + spec_J hbar dt * V`_i +
          (1 + 2 * - spec_K m hbar dx dt - spec_J hbar dt * V`_i) = 2
  by ring.
by rewrite ltr0n.
Qed.

Lemma spec_U_unitary :
  dagger (invmx (spec_A N V m hbar dx dt) *m spec_B N V m hbar dx dt) *m
    (invmx (spec_A N V m hbar dx dt) *m spec_B N V m hbar dx dt) = 1%:M.
Proof.
exact: (cayley_unitary spec_A_unit dagger_spec_A spec_A_plus_B).
Qed.

End RealData.

Lemma daggerB p q (X Y : 'M[C]_(p, q)) : dagger (X - Y) = dagger X - dagger Y.
Proof. by apply/matrixP => i j; rewrite !mxE rmorphB. Qed.

Lemma dagger_nat N (k : nat) : dagger (k%:R%:M : 'M[C]_N) = k%:R%:M.
Proof.
apply/matrixP => i j; rewrite !mxE eq_sym.
by case: (i == j); rewrite /= ?mulr1n ?mulr0n ?rmorph_nat ?rmorph0.
Qed.

(** The converse of [cayley_unitary]: when [A + B = 2], the propagator is
    unitary only if the Hermitian part of [A] is the identity. *)
Lemma cayley_unitary_only_if N (A B : 'M[C]_N) :
  A \in unitmx -> A + B = 2%:M ->
  dagger (invmx A *m B) *m (invmx A *m B) = 1%:M ->
  A + dagger A = 2%:M.
Proof.
move=> HA Hsum HU.
have HB : B = 2%:M - A by rewrite -Hsum addrC addKr.
have HU' := mulmx1C HU.
have HAU : A *m (invmx A *m B) = B by rewrite mulKVmx.
have HBB : B *m dagger B = A *m dagger A.
  by rewrite -{1 2}HAU dagger_mul mulmxA -[A *m _ *m _]mulmxA HU' mulmx1.
move: HBB; rewrite HB daggerB dagger_nat mulmxBl !mulmxBr.
rewrite !mul_scalar_mx mul_mx_scalar.
move/eqP; rewrite opprB addrA subr_eq [_ + (A *m _)]addrC.
rewrite (inj_eq (addrI _)) subr_eq -scalerDr => /eqP.
have H2 : (2 : C) != 0 by rewrite (pnatr_eq0 C 2).
by move/(scalerI H2) => <-.
Qed.

Lemma valid_GridConfig_real (g : Constants.t C) :
  valid_GridConfig g ->
  [/\ Constants.m g \is Num.real, Constants.hbar g \is Num.real,
      Constants.dx g \is Num.real & Constants.dt g \is Num.real].
Proof.
case/and5P => Hm Hh HL HN /and3P [/eqP Hdx Hdt _]; split => //.
- exact: gtr0_real.
- exact: gtr0_real.
- by rewrite Hdx rpred_div ?realn // gtr0_real.
Qed.

Lemma valid_GridConfig_neq0 (g : Constants.t C) :
  valid_GridConfig g ->
  [/\ Constants.m g != 0, Constants.hbar g != 0 & Constants.dx g != 0].
Proof.
case/and5P => Hm Hh HL HN /and3P [/eqP Hdx _ _]; split.
- by rewrite gt_eqF.
- by rewrite gt_eqF.
- rewrite Hdx mulf_neq0 //; first by rewrite gt_eqF.
  by rewrite invr_eq0 pnatr_eq0; case: (Constants.N g) HN.
Qed.

(** C2.  For a potential [V] of length [N] and constants [m], [hbar],
    [dx], [dt] (the denominators of [K] and [J] not zero), the two loops of
    [_construct_U] build exactly the tridiagonal matrices [A] and [B] of the
    Crank-Nicolson scheme, with [K = dt*i*hbar/(4*m*dx^2)] and
    [J = dt*i/(2*hbar)]: the diagonals [(1+2K) + J*V[i]] and
    [(1-2K) - J*V[i]], the first off-diagonals [-K] and [K], zero elsewhere;
    and what is returned is [inv(A) . B] (numpy raising [LinAlgError] in the
    one case where there is no inverse to multiply by). *)
Theorem construct_U_crank_nicolson V m hbar N dx dt :
  size V = N -> m != 0 -> hbar != 0 -> dx != 0 ->
  let K := (dt * 'i * hbar) / (4 * m * dx ^+ 2) in
  let J := (dt * 'i) / (2 * hbar) in
  exists A B : 'M[C]_N,
    [/\ construct_AB N V (1 + 2 * K) (- K) (1 - 2 * K) K J = Ok (A, B),
        forall i j : 'I_N,
          A i j = if i == j then (1 + 2 * K) + J * nth 0 V i
                  else if ((j : nat) == i.+1) || ((i : nat) == j.+1) then - K
                  else 0,
        forall i j : 'I_N,
          B i j = if i == j then (1 - 2 * K) - J * nth 0 V i
                  else if ((j : nat) == i.+1) || ((i : nat) == j.+1) then K
                  else 0
      & _construct_U V m hbar N dx dt =
        if A \in unitmx then Ok (invmx A *m B) else Raise LinAlgError].
Proof.
move=> HV Hm Hh Hdx K J.
exists (spec_A N V m hbar dx dt), (spec_B N V m hbar dx dt); split.
- by rewrite construct_ABE // HV.
- by move=> i j; rewrite !mxE.
- by move=> i j; rewrite !mxE.
- by rewrite construct_UE // HV.
Qed.

(** C1, amended.  For every valid grid configuration and every real-valued
    potential [V] of length [N], [_construct_U] returns a propagator [U],
    and [U] is unitary: [U* . U] is the identity, and [U] preserves the
    norm of every vector it is applied to. *)
Theorem construct_U_unitary_real_potential (g : Constants.t C) V :
  valid_GridConfig g -> size V = Constants.N g -> real_seq V ->
  exists U : 'M[C]_(Constants.N g),
    [/\ _construct_U V (Constants.m g) (Constants.hbar g) (Constants.N g)
                     (Constants.dx g) (Constants.dt g) = Ok U,
        dagger U *m U = 1%:M
      & forall psi, vnorm (_time_evolve_wavefunction U psi) = vnorm psi].
Proof.
move=> Hg Hsz HV.
have [Hm Hh Hdx Hdt] := valid_GridConfig_real Hg.
have [Hm0 Hh0 Hdx0] := valid_GridConfig_neq0 Hg.
have HU := spec_U_unitary (Constants.N g) Hm Hh Hdx Hdt HV.
eexists; split.
- by rewrite construct_UE ?Hsz // spec_A_unit.
- exact: HU.
- by move=> psi; rewrite /vnorm /_time_evolve_wavefunction unitary_norm2.
Qed.

Lemma absorbing_potential_breaks_unitarity :
  exists U : 'M[C]_2,
    _construct_U (absorbing_potential C) 1 1 2 (1 / 2) 1 = Ok U /\
    dagger U *m U <> 1%:M.
Proof.
set V := (absorbing_potential C).
have H1 : (1 : C) \is Num.real by rewrite rpred1.
have H2 : (1 / 2 : C) \is Num.real by rewrite rpred_div ?rpred1 ?realn.
have HK := conj_spec_K H1 H1 H2 H1.
have HJ : spec_J 1 1 * - 'i = 1 / 2 :> C.
  by rewrite /spec_J !mul1r mulr1 mulrN mulrAC -expr2 sqrCi mulN1r opprK.
have Hd0 : (1 + 2 * spec_K 1 1 (1 / 2) 1 + spec_J 1 1 * V`_0) +
           (1 + 2 * spec_K 1 1 (1 / 2) 1 + spec_J 1 1 * V`_0)^* = 3 :> C.
  rewrite /= HJ !rmorphD /= rmorph1 rmorphM /= rmorph_nat HK.
  rewrite rmorph_div ?unitfE ?(pnatr_eq0 C 2) //= rmorph1 rmorph_nat.
  by field.
have HA : spec_A 2 V 1 1 (1 / 2) 1 \in unitmx.
  apply: tridiag_unit => [|[|i] _].
  - by rewrite rmorphN /= HK opprK addrC subrr.
  - by rewrite Hd0 ltr0n.
  - have -> : V`_i.+1 = 0 by case: i => [|[|i]].
    rewrite mulr0 addr0 !rmorphD /= rmorph1 rmorphM /= rmorph_nat HK.
    have -> : 1 + 2 * spec_K 1 1 (1 / 2) 1 + (1 + 2 * - spec_K 1 1 (1 / 2) 1)
              = 2 :> C by ring.
    by rewrite ltr0n.
exists (invmx (spec_A 2 V 1 1 (1 / 2) 1) *m spec_B 2 V 1 1 (1 / 2) 1); split.
  rewrite construct_UE ?HA ?oner_neq0 //.
  by rewrite mulf_neq0 ?oner_neq0 // invr_eq0 (pnatr_eq0 C 2).
move=> HU.
have := cayley_unitary_only_if HA (spec_A_plus_B V 2 1 1 (1 / 2) 1) HU.
move/matrixP/(_ ord0 ord0); rewrite !mxE /= Hd0 mulr1n.
by move/eqP; rewrite eqr_nat.
Qed.


Lemma real_seq_scale V (s : C) :
  s \is Num.real -> real_seq V -> real_seq [seq v * s | v <- V].
Proof.
move=> Hs /allP HV; apply/allP => w /mapP [v Hv ->].
by rewrite rpredM // HV.
Qed.






End PropagatorTheory.

Section WaveTheory.

Variable C : numClosedFieldType.
Implicit Types (self : Wavefunction_1D.t C) (err : np_err) (y : seq C).

Lemma trapz_scale (c : C) y (d : C) :
  trapz [seq c * v | v <- y] d = c * trapz y d.
Proof.
rewrite /trapz size_map mulr_sumr big_nat [RHS]big_nat.
apply: eq_bigr => i /andP [_ Hi].
have Hi1 : (i.+1 < size y)%N by case: (size y) Hi.
rewrite !(nth_map 0) ?(ltnW Hi1) //.
by rewrite -mulrDr !mulrA [d * c]mulrC.
Qed.

Lemma trapz_zeros n (d : C) : trapz (nseq n 0) d = 0.
Proof.
by rewrite /trapz big1 // => i _; rewrite !nth_nseq !if_same addr0 mulr0 mul0r.
Qed.

Lemma normalize_pos err self :
  0 < norm_squared self ->
  normalize err self =
  Run (Ok tt)
      (Fin (set_x self [seq v / sqrtC (norm_squared self)
                       | v <- Wavefunction_1D.x self])) [::].
Proof.
move=> Hpos; rewrite /normalize /np_true_divide.
by rewrite sqrtC_eq0 (gt_eqF Hpos).
Qed.

Lemma norm_squared_normalized self :
  0 < norm_squared self ->
  norm_squared (set_x self [seq v / sqrtC (norm_squared self)
                           | v <- Wavefunction_1D.x self]) = 1.
Proof.
move=> Hpos; set t := sqrtC (norm_squared self).
have Ht : 0 < t by rewrite sqrtC_gt0.
have Hc : (t^-1)^* * t^-1 = (norm_squared self)^-1.
  rewrite (CrealP _) ?rpredV ?gtr0_real // -invfM -expr2.
  by rewrite /t sqrtCK.
rewrite /norm_squared /= -map_comp.
have -> : [seq ((fun v => v^* * v) \o (fun v => v / t)) v
          | v <- Wavefunction_1D.x self] =
          [seq (norm_squared self)^-1 * w
          | w <- [seq v^* * v | v <- Wavefunction_1D.x self]].
  rewrite -map_comp; apply: eq_map => v /=.
  by rewrite -Hc rmorphM /= mulrACA [RHS]mulrC.
by rewrite trapz_scale -/(norm_squared self) mulVf // gt_eqF.
Qed.

(** C9.  Normalization is idempotent: on a wavefunction whose squared norm
    (the trapezoidal integral of |psi|^2) is positive, [normalize] returns
    a wavefunction of squared norm 1, and a second [normalize] returns that
    same wavefunction. *)
Theorem normalize_idempotent err self :
  0 < norm_squared self ->
  exists s1 : Wavefunction_1D.t C,
    [/\ normalize err self = Run (Ok tt) (Fin s1) [::],
        normalize err s1 = Run (Ok tt) (Fin s1) [::]
      & norm_squared s1 = 1].
Proof.
move=> Hpos.
exists (set_x self [seq v / sqrtC (norm_squared self)
                   | v <- Wavefunction_1D.x self]).
have H1 := norm_squared_normalized Hpos.
split=> //; first exact: normalize_pos.
rewrite normalize_pos ?H1 ?ltr01 // sqrtC1.
have -> (l : seq C) : [seq v / 1 | v <- l] = l.
  by rewrite (eq_map (g := id)) ?map_id // => v; rewrite divr1.
by rewrite /set_x.
Qed.

Lemma normalize_zeros self n :
  Wavefunction_1D.x self = nseq n.+1 0 ->
  normalize err_warn self = Run (Ok tt) NonFinite [::] /\
  normalize err_raise self = Run (Ok tt) (Fin self) [:: FloatingPointError].
Proof.
move=> Hx; rewrite /normalize /np_true_divide /norm_squared Hx.
by rewrite map_nseq mulr0 trapz_zeros sqrtC0 eqxx.
Qed.

(** C4, at the failing input.  On the all-zero wavefunction, under numpy's
    default error state, [normalize] returns normally, prints nothing, and
    leaves an array of NaNs in [self.x]; its handler runs only when numpy
    has been set to raise, and then prints the error and keeps the array. *)
Theorem normalize_zero_wave :
  let self := Wavefunction_1D__init__ (WaveformArray (nseq 512 (0 : C))) in
  normalize err_warn self = Run (Ok tt) NonFinite [::] /\
  normalize err_raise self = Run (Ok tt) (Fin self) [:: FloatingPointError].
Proof. by move=> self; apply: (@normalize_zeros self 511). Qed.

(** *** Probabilities *)

Lemma abs2_nonneg (a : seq C) : nonneg (abs2 a).
Proof. by apply/allP => q /mapP [v _ ->]; rewrite exprn_ge0. Qed.

Lemma max_eq0 (v w : C) :
  0 <= v -> 0 <= w -> (Num.max v w == 0) = (v == 0) && (w == 0).
Proof.
move=> Hv Hw; case: (real_ltP (ger0_real Hv) (ger0_real Hw)) => Hvw.
  case: (altP (w =P 0)) => Hw0; last by rewrite andbF.
  by move: (lt_geF Hvw); rewrite Hw0 Hv.
case: (altP (v =P 0)) => Hv0 //=.
by move: Hvw; rewrite Hv0 => Hw0; rewrite eq_le Hw0 Hw.
Qed.

Lemma max_ge0 (v w : C) : 0 <= v -> 0 <= w -> 0 <= Num.max v w.
Proof.
by move=> Hv Hw; case: (real_ltP (ger0_real Hv) (ger0_real Hw)).
Qed.

Lemma foldl_max_eq0 (v : C) (a : seq C) :
  0 <= v -> nonneg a -> (foldl Num.max v a == 0) = (v == 0) && allzero a.
Proof.
elim: a v => [|w a IH] v Hv /=; first by rewrite andbT.
case/andP => Hw Ha; rewrite IH ?max_ge0 // max_eq0 //.
by rewrite andbA.
Qed.

Lemma np_max_nonneg (a : seq C) :
  a != [::] -> nonneg a ->
  exists2 mx, np_max a = Ok mx & (mx == 0) = allzero a.
Proof.
case: a => [|v a] // _ /= /andP [Hv Ha].
by exists (foldl Num.max v a) => //; rewrite foldl_max_eq0.
Qed.

Lemma np_sum_eq0 (a : seq C) : nonneg a -> (np_sum a == 0) = allzero a.
Proof.
move=> /allP Ha; rewrite /np_sum big_seq psumr_eq0; first exact: Ha.
by apply: eq_in_all => q Hq; rewrite Hq.
Qed.

Lemma np_sum_div (a : seq C) (t : C) :
  np_sum [seq q / t | q <- a] = np_sum a / t.
Proof. by rewrite /np_sum big_map mulr_suml. Qed.

Lemma renormalizeE err (prob : seq C) :
  prob != [::] -> nonneg prob ->
  renormalize err prob = Ok (Fin (renormalized prob)).
Proof.
move=> Hne Hpos; rewrite /renormalize /renormalized.
have [mx -> Hmx] := np_max_nonneg Hne Hpos.
rewrite /= Hmx; case: (boolP (allzero prob)) => //= Hz.
by rewrite /np_true_divide np_sum_eq0 // (negPf Hz).
Qed.

Lemma np_sum_renormalized (prob : seq C) :
  nonneg prob -> ~~ allzero prob -> np_sum (renormalized prob) = 1.
Proof.
move=> Hpos Hz; rewrite /renormalized (negPf Hz) np_sum_div divff //.
by rewrite np_sum_eq0.
Qed.

Lemma size_renormalized (prob : seq C) : size (renormalized prob) = size prob.
Proof. by rewrite /renormalized; case: ifP => // _; rewrite size_map. Qed.

Lemma nth_allzero (a : seq C) k : allzero a -> nth 0 a k = 0.
Proof.
move=> /allP Ha; case: (ltnP k (size a)) => Hk; last exact: nth_default.
exact/eqP/Ha/mem_nth.
Qed.

Lemma eigen_probE r c err self (E : 'M[C]_(r, c)) :
  size (Wavefunction_1D.x self) = r -> (0 < c)%N ->
  eigen_prob err self E = Ok (Fin (renormalized (overlaps self E))).
Proof.
move=> Hr Hc; rewrite /eigen_prob /np_dot_mx Hr eqxx /=.
have -> (d : 'I_c -> C) :
    abs2 [seq d k | k <- enum 'I_c] = [seq `|d k| ^+ 2 | k <- enum 'I_c].
  by rewrite /abs2 -map_comp.
apply: renormalizeE.
  by rewrite -size_eq0 size_map size_enum_ord -lt0n.
by apply/allP => q /mapP [k _ ->]; rewrite exprn_ge0.
Qed.

(** C6.  With [prob[k] = |<psi, eigenvector k>|^2], [expectation_value]
    divides [prob] by its sum exactly when [np.max(prob)] is not zero (and
    then [prob] sums to 1), and returns the sum of [real(eigenvalue k)] times
    [prob[k]]; when every probability is zero it returns 0.  It raises
    nothing, prints nothing and leaves the object as it was. *)
Theorem expectation_value_spec r c err self (eigenvalues : seq C)
    (eigenstates : 'M[C]_(r, c)) :
  size (Wavefunction_1D.x self) = r -> size eigenvalues = c -> (0 < c)%N ->
  let prob := overlaps self eigenstates in
  let scaled := [seq q / np_sum prob | q <- prob] in
  exists mx : C,
    [/\ np_max prob = Ok mx,
        expectation_value err self eigenvalues eigenstates =
        Run (Ok (Fin (\sum_(0 <= k < c)
                       'Re (nth 0 eigenvalues k) *
                       nth 0 (if mx != 0 then scaled else prob) k)))
            (Fin self) [::],
        mx != 0 -> np_sum scaled = 1
      & mx = 0 ->
        expectation_value err self eigenvalues eigenstates =
        Run (Ok (Fin 0)) (Fin self) [::]].
Proof.
move=> Hr Hev Hc prob scaled.
have Hsz : size prob = c by rewrite size_map size_enum_ord.
have Hne : prob != [::] by rewrite -size_eq0 Hsz -lt0n.
have Hpos : nonneg prob.
  by apply/allP => q /mapP [k _ ->]; rewrite exprn_ge0.
have [mx Hmx Hz] := np_max_nonneg Hne Hpos.
have Hret : expectation_value err self eigenvalues eigenstates =
    Run (Ok (Fin (\sum_(0 <= k < c)
                   'Re (nth 0 eigenvalues k) *
                   nth 0 (if mx != 0 then scaled else prob) k)))
        (Fin self) [::].
  rewrite /expectation_value eigen_probE // /np_dot_fl Hev eqxx /=.
  rewrite /np_dot size_map Hev size_renormalized Hsz eqxx /=.
  congr (Run (Ok (Fin _)) _ _); rewrite big_nat [RHS]big_nat.
  apply: eq_bigr => k /andP [_ Hk]; rewrite (nth_map 0) ?Hev //.
  by rewrite /renormalized -Hz; case: (mx == 0).
exists mx; split=> //.
  move=> Hmx0; have Hnz : ~~ allzero prob by rewrite -Hz.
  by have := np_sum_renormalized Hpos Hnz; rewrite /renormalized (negPf Hnz).
move=> Hmx0; rewrite Hret Hmx0 eqxx /=.
have Hall : allzero prob by rewrite -Hz Hmx0 eqxx.
congr (Run (Ok (Fin _)) _ _); rewrite big1 // => k _.
by rewrite (nth_allzero _ Hall) mulr0.
Qed.

(** *** The weighted draw *)

Lemma foldl_addE (a : C) (p : seq C) : foldl +%R a p = a + \sum_(q <- p) q.
Proof.
elim: p a => [|q p IH] a /=; first by rewrite big_nil addr0.
by rewrite IH big_cons addrA.
Qed.

Lemma nth_cumsum (p : seq C) k :
  (k < size p)%N -> nth 0 (cumsum p) k = prefix k.+1 p.
Proof. by move=> Hk; rewrite /cumsum nth_scanl // foldl_addE add0r. Qed.

Lemma last_cumsum (p : seq C) : p != [::] -> last 0 (cumsum p) = np_sum p.
Proof.
move=> Hne; have Hsz : (0 < size p)%N by rewrite lt0n size_eq0.
rewrite -nth_last size_scanl nth_cumsum ?prednK // /prefix.
by rewrite take_size.
Qed.

Lemma prefixS (p : seq C) k :
  (k < size p)%N -> prefix k.+1 p = prefix k p + nth 0 p k.
Proof.
by move=> Hk; rewrite /prefix (take_nth 0) // -cats1 big_cat big_seq1.
Qed.

Lemma prefix_real (p : seq C) k : nonneg p -> prefix k p \is Num.real.
Proof.
move=> /allP Hp; rewrite /prefix big_seq; apply: rpred_sum => q Hq.
by apply: ger0_real; apply: Hp; apply: mem_take Hq.
Qed.

Lemma choice_indexP (p : seq C) (u : C) :
  p != [::] -> nonneg p -> np_sum p = 1 -> 0 <= u < 1 ->
  [/\ (choice_index p u < size p)%N,
      prefix (choice_index p u) p <= u
    & u < prefix (choice_index p u) p + nth 0 p (choice_index p u)].
Proof.
move=> Hne Hpos Hsum /andP [Hu0 Hu1].
have Hsz : (0 < size p)%N by rewrite lt0n size_eq0.
rewrite /choice_index last_cumsum // Hsum.
have -> : [seq c / 1 | c <- cumsum p] = cumsum p.
  by rewrite (eq_map (g := id)) ?map_id // => c; rewrite divr1.
rewrite /searchsorted_right; set P := fun c : C => u < c.
have Hhas : has P (cumsum p).
  apply/hasP; exists (last 0 (cumsum p)); last by rewrite /P last_cumsum ?Hsum.
  have : (0 < size (cumsum p))%N by rewrite size_scanl.
  by case: (cumsum p) => // c s _; rewrite /= mem_last.
have Hk : (find P (cumsum p) < size p)%N by rewrite -(size_scanl +%R 0) -has_find.
split=> //; last by rewrite -prefixS // -nth_cumsum //; apply: (nth_find 0 Hhas).
case Ek : (find P (cumsum p)) => [|k]; first by rewrite /prefix take0 big_nil.
have Hlt : (k < find P (cumsum p))%N by rewrite Ek.
have Hk' : (k < size p)%N by apply: ltn_trans Hk; rewrite Ek.
have := before_find 0 Hlt; rewrite /P (nth_cumsum Hk').
by move/negbT; rewrite -real_leNgt ?prefix_real // ger0_real.
Qed.

Lemma np_random_choiceE (A : Type) (a : seq A) (a0 : A) (p : seq C) (u : C) :
  size p = size a -> p != [::] -> nonneg p -> np_sum p = 1 -> 0 <= u < 1 ->
  np_random_choice a p u = Ok (nth a0 a (choice_index p u)).
Proof.
move=> Hsz Hne Hpos Hsum Hu.
have [Hk _ _] := choice_indexP Hne Hpos Hsum Hu.
rewrite /np_random_choice; case: a Hsz Hk => [|a1 a] Hsz Hk.
  by move: Hne; rewrite -size_eq0 Hsz.
rewrite Hsz in Hk; rewrite Hsz eqxx -/(nonneg p) Hpos Hsum eqxx Hk /=.
by congr Ok; apply: set_nth_default.
Qed.

Lemma renormalized_nonneg (prob : seq C) :
  nonneg prob -> nonneg (renormalized prob).
Proof.
move=> Hpos; rewrite /renormalized; case: ifP => // _.
have HS : 0 <= np_sum prob.
  by rewrite /np_sum big_seq sumr_ge0 // => q /(allP Hpos).
by apply/allP => q /mapP [v /(allP Hpos) Hv ->]; rewrite divr_ge0.
Qed.

Lemma overlaps_nonneg r c self (E : 'M[C]_(r, c)) : nonneg (overlaps self E).
Proof. by apply/allP => q /mapP [k _ ->]; rewrite exprn_ge0. Qed.

Lemma size_overlaps r c self (E : 'M[C]_(r, c)) : size (overlaps self E) = c.
Proof. by rewrite size_map size_enum_ord. Qed.

(** The draw of [set_to_eigenstate], the assignment of the sampled column
    and the closing [normalize]. *)
Lemma set_to_eigenstateE r c err self (eigenvalues : seq C)
    (E : 'M[C]_(r, c)) (u : C) :
  size (Wavefunction_1D.x self) = r -> ~~ allzero (overlaps self E) ->
  0 <= u < 1 ->
  let prob := renormalized (overlaps self E) in
  exists k : 'I_c,
    [/\ choice_index prob u = k,
        prefix k prob <= u < prefix k prob + nth 0 prob k
      & set_to_eigenstate err self eigenvalues E u =
        let after := normalize err (set_x self [seq E j k | j <- enum 'I_r]) in
        Run (index eigenvalues k) (self_after after) (stdout after)].
Proof.
move=> Hr Hnz Hu prob.
have Hc : (0 < c)%N.
  rewrite lt0n; apply: contraNneq Hnz => Hc0.
  have : size (overlaps self E) = 0%N by rewrite size_overlaps.
  by move/size0nil ->.
have Hpos : nonneg prob := renormalized_nonneg (overlaps_nonneg self E).
have Hsz : size prob = c by rewrite size_renormalized size_overlaps.
have Hne : prob != [::] by rewrite -size_eq0 Hsz -lt0n.
have Hsum : np_sum prob = 1 := np_sum_renormalized (overlaps_nonneg self E) Hnz.
have [Hk Hlo Hhi] := choice_indexP Hne Hpos Hsum Hu.
rewrite Hsz in Hk; exists (Ordinal Hk); split=> //; first by rewrite Hlo Hhi.
rewrite /set_to_eigenstate eigen_probE //= -/prob.
rewrite (@np_random_choiceE _ _ 0%N) ?size_iota //= nth_iota // add0n.
by rewrite /column insubT.
Qed.

Lemma overlaps_identity n self :
  size (Wavefunction_1D.x self) = n ->
  overlaps self (1%:M : 'M[C]_n) = abs2 (Wavefunction_1D.x self).
Proof.
move=> Hn; rewrite /overlaps /abs2.
have -> : [seq `|\sum_(j < n) nth 0 (Wavefunction_1D.x self) j * (1%:M : 'M[C]_n) j k| ^+ 2
          | k <- enum 'I_n] =
          [seq `|nth 0 (Wavefunction_1D.x self) (val k)| ^+ 2 | k <- enum 'I_n].
  apply: eq_map => k; rewrite (bigD1 k) //= mxE eqxx mulr1 big1 ?addr0 //.
  by move=> j Hj; rewrite mxE (negPf Hj) mulr0.
rewrite (map_comp (fun i : nat => `|nth 0 (Wavefunction_1D.x self) i| ^+ 2) val).
rewrite val_enum_ord -Hn.
rewrite (map_comp (fun v => `|v| ^+ 2) (nth 0 (Wavefunction_1D.x self))).
by rewrite -/(mkseq _ _) mkseq_nth.
Qed.

Lemma abs2_one_hot : abs2 (one_hot C) = (one_hot C).
Proof. by rewrite /abs2 /= normr0 normr1 expr0n expr1n. Qed.

Lemma renormalized_one_hot : renormalized (one_hot C) = (one_hot C).
Proof.
have HS : np_sum (one_hot C) = 1.
  by rewrite /np_sum /one_hot !big_cons big_nil !addr0 add0r.
by rewrite /renormalized HS /allzero /= eqxx oner_eq0 /= !divr1.
Qed.

(** [normalize] on a non-empty array: the array divided by the square root
    of its integral, unless the integral is zero. *)
Lemma normalize_cases err self :
  Wavefunction_1D.x self != [::] ->
  normalize err self =
  Run (Ok tt)
      (if norm_squared self != 0
       then Fin (set_x self [seq v / sqrtC (norm_squared self)
                            | v <- Wavefunction_1D.x self])
       else if err is err_raise then Fin self else NonFinite)
      (if norm_squared self != 0 then [::]
       else if err is err_raise then [:: FloatingPointError] else [::]).
Proof.
move=> Hne; rewrite /normalize /np_true_divide sqrtC_eq0 Hne andbT.
by case: eqP => _ //=; case: err.
Qed.

Lemma overlaps_rows r c self (E : 'M[C]_(r, c)) :
  ~~ allzero (overlaps self E) -> (0 < r)%N.
Proof.
case: r E => // E /negP []; apply/allP => q /mapP [k _ ->].
by rewrite big_ord0 normr0 expr0n.
Qed.

(** The object [set_to_eigenstate] leaves behind, written out. *)
Lemma set_to_eigenstate_cases r c err self (eigenvalues : seq C)
    (E : 'M[C]_(r, c)) (u : C) :
  size (Wavefunction_1D.x self) = r -> size eigenvalues = c ->
  ~~ allzero (overlaps self E) -> 0 <= u < 1 ->
  let prob := renormalized (overlaps self E) in
  exists k : 'I_c,
    let col := [seq E j k | j <- enum 'I_r] in
    let g := Wavefunction_1D.consts self in
    let nsq := trapz [seq v^* * v | v <- col] (Constants.dx g) in
    [/\ choice_index prob u = k,
        prefix k prob <= u < prefix k prob + nth 0 prob k
      & set_to_eigenstate err self eigenvalues E u =
        Run (Ok (nth 0 eigenvalues k))
            (if nsq != 0
             then Fin (Wavefunction_1D.Make g [seq v / sqrtC nsq | v <- col])
             else if err is err_raise then Fin (Wavefunction_1D.Make g col)
             else NonFinite)
            (if nsq != 0 then [::]
             else if err is err_raise then [:: FloatingPointError]
             else [::])].
Proof.
move=> Hr Hev Hnz Hu prob.
have [k [Hk Hint Hset]] := set_to_eigenstateE err eigenvalues Hr Hnz Hu.
exists k; split=> //.
have Hne : Wavefunction_1D.x (set_x self [seq E j k | j <- enum 'I_r]) != [::].
  by rewrite -size_eq0 size_map size_enum_ord -lt0n (overlaps_rows Hnz).
by rewrite Hset normalize_cases // /index Hev ltn_ord.
Qed.

(** C7.  [set_to_eigenstate] computes [prob] as [expectation_value] does,
    draws one index [k] by inverse transform on [prob] (the variates that
    select [k] fill an interval of length [prob[k]]), sets [self.x] to column
    [k] of the eigenvector array, normalizes, and returns [eigenvalues[k]]:
    the array it leaves in [self.x] is the column divided by the square root
    of its trapezoidal integral [nsq], of integral 1 when [nsq] is positive;
    when [nsq] is zero the division fails as in [normalize] (NaNs under
    numpy's default error state, the bare column and a printed error once
    numpy is set to raise).
    With [eigenvalues = [1, 2, 3]], the 3x3 identity and [psi = [0, 1, 0]],
    [prob] is [[0, 1, 0]], the value returned is 2 and [self.x] becomes
    [[0, 1/sqrt(dx), 0]], whatever is drawn. *)
Theorem set_to_eigenstate_spec :
  (forall r c err self (eigenvalues : seq C) (E : 'M[C]_(r, c)) (u : C),
     size (Wavefunction_1D.x self) = r -> size eigenvalues = c ->
     ~~ allzero (overlaps self E) -> 0 <= u < 1 ->
     let prob := renormalized (overlaps self E) in
     exists k : 'I_c,
       let col := [seq E j k | j <- enum 'I_r] in
       let g := Wavefunction_1D.consts self in
       let nsq := trapz [seq v^* * v | v <- col] (Constants.dx g) in
       let unit_col := [seq v / sqrtC nsq | v <- col] in
       [/\ eigen_prob err self E = Ok (Fin prob),
           choice_index prob u = k,
           prefix k prob <= u < prefix k prob + nth 0 prob k,
           set_to_eigenstate err self eigenvalues E u =
           Run (Ok (nth 0 eigenvalues k))
               (if nsq != 0 then Fin (Wavefunction_1D.Make g unit_col)
                else if err is err_raise then Fin (Wavefunction_1D.Make g col)
                else NonFinite)
               (if nsq != 0 then [::]
                else if err is err_raise then [:: FloatingPointError]
                else [::])
         & 0 < nsq ->
           trapz [seq v^* * v | v <- unit_col] (Constants.dx g) = 1])
  /\
  (forall err (u : C), 0 <= u < 1 ->
     let self := Wavefunction_1D__init__ (WaveformArray (one_hot C)) in
     let g := Constants__init__ C in
     eigen_prob err self (1%:M : 'M[C]_3) = Ok (Fin [:: 0; 1; 0]) /\
     set_to_eigenstate err self [:: 1; 2; 3] (1%:M : 'M[C]_3) u =
     Run (Ok 2)
         (Fin (Wavefunction_1D.Make g [:: 0; (sqrtC (Constants.dx g))^-1; 0]))
         [::]).
Proof.
split.
  move=> r c err self eigenvalues E u Hr Hev Hnz Hu prob.
  have [k [Hk Hint Hset]] := set_to_eigenstate_cases err Hr Hev Hnz Hu.
  exists k; split=> //.
    apply: eigen_probE => //; rewrite lt0n; apply: contraNneq Hnz => Hc0.
    have : size (overlaps self E) = 0%N by rewrite size_overlaps.
    by move/size0nil ->.
  exact: (@norm_squared_normalized
            (set_x self [seq E j k | j <- enum 'I_r])).
move=> err u Hu self g.
have Hx : size (Wavefunction_1D.x self) = 3%N by [].
have Hov : overlaps self (1%:M : 'M[C]_3) = (one_hot C).
  by rewrite overlaps_identity // abs2_one_hot.
have Hnz : ~~ allzero (overlaps self (1%:M : 'M[C]_3)).
  by rewrite Hov /allzero /= oner_eq0 andbF.
split; first by rewrite eigen_probE // Hov renormalized_one_hot.
have [k [_ /andP [Hlo Hhi] ->]] :=
  set_to_eigenstate_cases err Hx (erefl (size [:: 1; 2; 3 : C])) Hnz Hu.
have Hdx : Constants.dx g != 0.
  by rewrite /g /Constants__init__ /= mul1r invr_eq0 pnatr_eq0.
have Hcol (k1 : 'I_3) : val k1 = 1%N ->
    [seq (1%:M : 'M[C]_3) j k1 | j <- enum 'I_3] = one_hot C.
  move=> Hk1.
  have -> : [seq (1%:M : 'M[C]_3) j k1 | j <- enum 'I_3] =
            [seq ((val j == 1%N)%:R : C) | j <- enum 'I_3].
    by apply: eq_map => j; rewrite mxE -val_eqE Hk1.
  by rewrite (map_comp (fun i : nat => (i == 1%N)%:R) val) val_enum_ord.
have Hnsq (d : C) : trapz [seq v^* * v | v <- one_hot C] d = d.
  have H2 : (2 : C) != 0 by rewrite pnatr_eq0.
  rewrite /trapz /one_hot /= big_nat_recl // big_nat1 /=.
  rewrite rmorph0 rmorph1 !mulr0 mulr1 addr0 add0r.
  by field.
move: Hlo Hhi; rewrite Hov renormalized_one_hot.
case: k => [[|[|[|k]]] Hk] //= Hlo Hhi.
- by move: (le_lt_trans Hlo Hhi); rewrite addr0 ltxx.
- by rewrite Hcol // Hnsq Hdx /one_hot /= !mul0r mul1r.
- by move: (le_lt_trans Hlo Hhi); rewrite addr0 ltxx.
Qed.

(** *** Momentum *)

Variable pi : C.
Variable expi : C -> C.

Lemma np_fft_fft_ok (a : seq C) :
  a != [::] ->
  exists2 F, np_fft_fft pi expi a = Ok F & size F = size a.
Proof.
rewrite -size_eq0 /np_fft_fft => /negPf ->.
by eexists; first by []; rewrite size_mkseq.
Qed.

Lemma np_fft_fftfreq_ok (n : nat) (d : C) :
  (0 < n)%N -> d != 0 ->
  exists2 freq, np_fft_fftfreq n d = Ok freq & size freq = n.
Proof.
move=> Hn Hd; rewrite /np_fft_fftfreq py_div_ok /=.
  by rewrite mulf_neq0 // pnatr_eq0 -lt0n.
by eexists; first by []; rewrite size_map size_mkseq.
Qed.

Lemma momentum_probE err self F :
  np_fft_fft pi expi (Wavefunction_1D.x self) = Ok F -> F != [::] ->
  momentum_prob pi expi err self = Ok (F, Fin (renormalized (abs2 F))).
Proof.
move=> HF Hne; rewrite /momentum_prob HF /= renormalizeE ?abs2_nonneg //.
by rewrite -size_eq0 size_map size_eq0.
Qed.

(** C10.  [expected_momentum] is an observer: whatever it returns or
    raises, the object (array and constants) is left as it was and nothing
    is printed; and on a wavefunction of the grid's length it returns the
    sum of the momenta [2*pi*freq*hbar/L] weighted by the renormalised
    probabilities [|FFT(psi)|^2]. *)
Theorem expected_momentum_pure err self :
  (self_after (expected_momentum pi expi err self) = Fin self /\
   stdout (expected_momentum pi expi err self) = [::]) /\
  (let g := Wavefunction_1D.consts self in
   size (Wavefunction_1D.x self) = Constants.N g -> (0 < Constants.N g)%N ->
   Constants.dx g != 0 -> Constants.L g != 0 ->
   exists F freq : seq C,
     [/\ np_fft_fft pi expi (Wavefunction_1D.x self) = Ok F,
         np_fft_fftfreq (Constants.N g) (Constants.dx g) = Ok freq
       & ret (expected_momentum pi expi err self) =
         Ok (Fin (\sum_(0 <= k < Constants.N g)
                    (2 * pi * nth 0 freq k * Constants.hbar g / Constants.L g) *
                    nth 0 (renormalized (abs2 F)) k))]).
Proof.
split=> // g Hsz HN Hdx HL.
have Hne : Wavefunction_1D.x self != [::] by rewrite -size_eq0 Hsz -lt0n.
have [F HF HsF] := np_fft_fft_ok Hne.
have [freq Hfreq Hsfreq] := np_fft_fftfreq_ok HN Hdx.
exists F, freq; split=> //.
have HFne : F != [::] by rewrite -size_eq0 HsF Hsz -lt0n.
rewrite /= /expected_momentum_value (momentum_probE _ HF HFne) /= Hfreq /=.
rewrite /np_true_divide (negPf HL) /= /np_dot_fl Hsfreq HsF Hsz eqxx /=.
rewrite /np_dot !size_map Hsfreq size_renormalized size_map HsF Hsz eqxx /=.
congr (Ok (Fin _)); rewrite big_nat [RHS]big_nat.
apply: eq_bigr => k /andP [_ Hk].
by rewrite (nth_map 0) ?size_map ?Hsfreq // (nth_map 0) ?Hsfreq.
Qed.

(** *** The collapse onto a momentum eigenstate *)

Lemma mkseq_zeros (f : nat -> C) n :
  (forall i, (i < n)%N -> f i = 0) -> mkseq f n = nseq n 0.
Proof.
move=> Hf; apply: (@eq_from_nth _ 0); first by rewrite size_mkseq size_nseq.
by move=> i; rewrite size_mkseq => Hi; rewrite nth_mkseq // nth_nseq Hi Hf.
Qed.

Lemma choice_index_head (q : C) (ps : seq C) (u : C) :
  np_sum (q :: ps) = 1 -> u < q -> choice_index (q :: ps) u = 0%N.
Proof.
move=> Hsum Hu; rewrite /choice_index last_cumsum // Hsum.
by rewrite /cumsum /searchsorted_right /= add0r divr1 Hu.
Qed.

(** The mask of [set_to_momentum_eigenstate] when the frequency drawn is 0:
    every entry that differs from 0 is replaced by 0, and the entry kept is
    the frequency itself, 0. *)
Lemma mask_zero_frequency (freq : seq C) :
  [seq (if f != 0 then 0 else f) | f <- freq] = nseq (size freq) 0.
Proof.
elim: freq => [|f freq IH] //=; rewrite IH; congr (_ :: _).
by case: (altP (f =P 0)).
Qed.

Lemma np_fft_ifft_zeros n :
  np_fft_ifft pi expi (nseq n.+1 0) = Ok (nseq n.+1 0).
Proof.
rewrite /np_fft_ifft size_nseq.
have -> : (n.+1 == 0%N) = false by [].
congr Ok; apply: mkseq_zeros => j _.
by rewrite big1 ?mul0r // => k _; rewrite nth_nseq if_same mul0r.
Qed.

Section ConstantWave.

Hypothesis expi0 : expi 0 = 1.

Variables (self : Wavefunction_1D.t C) (n : nat).
Let g := Wavefunction_1D.consts self.
Hypothesis Hx : Wavefunction_1D.x self = nseq n.+1 1.
Hypothesis HN : Constants.N g = n.+1.
Hypothesis Hdx : Constants.dx g != 0.
Hypothesis HL : Constants.L g != 0.

Lemma constant_wave_collapse err :
  set_to_momentum_eigenstate pi expi err self 0 =
  let after := normalize err (set_x self (nseq n.+1 0)) in
  Run (Ok (Fin 0)) (self_after after) (stdout after).
Proof.
have Hne : Wavefunction_1D.x self != [::] by rewrite Hx.
have [F HF HsF] := np_fft_fft_ok Hne.
have HFne : F != [::] by rewrite -size_eq0 HsF Hx size_nseq.
have [freq Hfreq Hsfreq] : exists2 freq,
    np_fft_fftfreq (Constants.N g) (Constants.dx g) = Ok freq &
    size freq = n.+1.
  by rewrite HN; apply: np_fft_fftfreq_ok.
have Hfreq0 : nth 0 freq 0 = 0.
  move: Hfreq; rewrite /np_fft_fftfreq HN py_div_ok /=.
    by rewrite mulf_neq0 // pnatr_eq0.
  by case=> <-; rewrite /= mul0r.
have HF0 : nth 0 F 0 = n.+1%:R.
  move: HF; rewrite /np_fft_fft Hx size_nseq.
  have -> : (n.+1 == 0%N) = false by [].
  case=> <-; rewrite nth_mkseq //.
  rewrite big_nat (eq_bigr (fun=> 1)).
    move=> j /andP [_ Hj]; rewrite -[1 :: nseq n 1]/(nseq n.+1 1) nth_nseq Hj.
    by rewrite mul1r mulr0 mul0r oppr0 expi0.
  by rewrite -big_nat sumr_const_nat subn0.
have [F' HFeq] : exists F', F = n.+1%:R :: F'.
  by case: F HF0 HFne {HF HsF} => // f F' /= -> _; exists F'.
move: HF HsF HFne {HF0}; rewrite {F}HFeq => HF HsF HFne.
set F := n.+1%:R :: F' in HF HsF HFne *.
set prob := renormalized (abs2 F).
have Hpos : nonneg (abs2 F) := abs2_nonneg F.
have Hq : 0 < `|n.+1%:R : C| ^+ 2 by rewrite exprn_gt0 // normr_gt0 pnatr_eq0.
have Hnz : ~~ allzero (abs2 F) by rewrite /allzero /= (gt_eqF Hq).
have Hsum : np_sum prob = 1 := np_sum_renormalized Hpos Hnz.
have Hszp : size prob = size freq.
  by rewrite size_renormalized size_map HsF Hx size_nseq Hsfreq.
have HS : 0 < np_sum (abs2 F).
  by rewrite lt0r np_sum_eq0 // Hnz /np_sum big_seq sumr_ge0 // => q /(allP Hpos).
have Hk : choice_index prob 0 = 0%N.
  move: Hsum; rewrite /prob /renormalized (negPf Hnz) /= => Hsum.
  by apply: choice_index_head => //; rewrite divr_gt0.
rewrite /set_to_momentum_eigenstate -/g (momentum_probE _ HF HFne) /= Hfreq /=.
have Hch : np_random_choice freq prob 0 =
           Ok (nth 0 freq (choice_index prob 0)).
  apply: np_random_choiceE => //.
  - by rewrite -size_eq0 Hszp Hsfreq.
  - exact: renormalized_nonneg.
  - by rewrite lexx ltr01.
rewrite Hch /= Hk Hfreq0 mask_zero_frequency Hsfreq size_nseq.
rewrite -[0 :: nseq n 0]/(nseq n.+1 0).
rewrite (@mkseq_zeros _ n.+1); first by move=> i _; rewrite nth_nseq if_same mul0r.
rewrite np_fft_ifft_zeros [bind _ _]/= /np_scalar_divide (negPf HL).
by rewrite mulr0 !mul0r.
Qed.

End ConstantWave.

(** C3, at the failing input.  On the constant wavefunction the frequency
    drawn with the variate 0 is 0; the mask multiplies the Fourier
    coefficients by the frequencies it keeps, so it multiplies the one
    coefficient it should keep by 0: the inverse transform is the zero
    array, which [normalize] cannot normalize.  The method returns the
    momentum 0 and leaves NaNs in [self.x] (or, when numpy raises, the zero
    array and a printed error), not the normalized constant mode. *)
Theorem momentum_collapse_constant_wave :
  expi 0 = 1 ->
  let self := Wavefunction_1D__init__ (WaveformArray (nseq 512 (1 : C))) in
  set_to_momentum_eigenstate pi expi err_warn self 0 =
    Run (Ok (Fin 0)) NonFinite [::] /\
  set_to_momentum_eigenstate pi expi err_raise self 0 =
    Run (Ok (Fin 0)) (Fin (set_x self (nseq 512 0))) [:: FloatingPointError].
Proof.
move=> expi0 self.
have Hdx : Constants.dx (Wavefunction_1D.consts self) != 0.
  by rewrite /= mulf_neq0 ?oner_neq0 // invr_eq0 pnatr_eq0.
have HL : Constants.L (Wavefunction_1D.consts self) != 0 by rewrite /= oner_neq0.
have Hc err := @constant_wave_collapse expi0 self 511 (erefl _) (erefl _) Hdx HL err.
have [Hw Hr] := @normalize_zeros (set_x self (nseq 512 0)) 511 (erefl _).
by rewrite !Hc Hw Hr.
Qed.

End WaveTheory.

Section GridTheory.

Variable C : numClosedFieldType.

Lemma nth_linspace (start stop : C) (num i : nat) :
  (1 < num)%N -> (i < num)%N ->
  nth 0 (linspace start stop num) i =
  start + i%:R * ((stop - start) / (num.-1)%:R).
Proof.
move=> Hnum Hi; rewrite /linspace nth_mkseq // Hnum /=.
case: (altP (i =P num.-1)) => // ->.
rewrite mulrCA divff; first by rewrite pnatr_eq0 -lt0n -subn1 subn_gt0.
by rewrite mulr1 addrC subrK.
Qed.

(** The spacing of the grid is [L/(N-1)], not the stored [dx = L/N]:
    no interior or end point is where [x0 + i*dx] puts it. *)
Lemma grid_spacing (g : Constants.t C) (i : nat) :
  (1 < Constants.N g)%N -> (i < Constants.N g)%N ->
  nth 0 (grid g) i =
  Constants.x0 g + i%:R * (Constants.L g / (Constants.N g).-1%:R).
Proof.
by move=> HN Hi; rewrite /grid nth_linspace // addrK.
Qed.

(** C5, at the failing input.  With the constants of the source, a
    callable is sampled on [np.linspace(x0, x0 + L, N)]: sample 511, the
    last one, is taken at [x0 + L = 0.5], where [x0 + 511*dx] is
    [0.5 - 1/512]; the identity callable stores the grid itself. *)
Theorem grid_last_sample :
  let g := Constants__init__ C in
  let psi := Wavefunction_1D__init__ (WaveformCallable (fun xs : seq C => xs)) in
  [/\ nth 0 (Wavefunction_1D.x psi) 511 = Constants.x0 g + Constants.L g,
      Constants.x0 g + 511%:R * Constants.dx g =
      Constants.x0 g + Constants.L g - 1 / 512%:R
    & nth 0 (Wavefunction_1D.x psi) 511 <>
      Constants.x0 g + 511%:R * Constants.dx g].
Proof.
move=> g psi.
have H512 : (512%:R : C) != 0 by rewrite pnatr_eq0.
have H511 : (511%:R : C) != 0 by rewrite pnatr_eq0.
have E1 : nth 0 (Wavefunction_1D.x psi) 511 = Constants.x0 g + Constants.L g.
  rewrite -[Wavefunction_1D.x psi]/(grid g) (@grid_spacing g 511) //.
  by rewrite -[(Constants.N g).-1]/511%N mulrCA divff ?mulr1.
have E2 : Constants.x0 g + 511%:R * Constants.dx g =
          Constants.x0 g + Constants.L g - 1 / 512%:R.
  rewrite -addrA; congr (_ + _).
  rewrite -[Constants.dx g]/(1 / 512%:R) -[Constants.L g]/1.
  apply: (mulIf H512); rewrite mulrBl -mulrA -[1 / _ * _]mulrA mulVf //.
  by rewrite !mulr1 mul1r -[X in _ = X - 1]/(512%:R) -[in RHS](natrB _ (isT : 0 < 512)%N).
split=> //; rewrite E1 E2 => /eqP.
rewrite -subr_eq0 opprB addrC subrK mul1r invr_eq0.
by rewrite (negPf H512).
Qed.

End GridTheory.

Section PropagatorEdges.

Variable C : numClosedFieldType.
Implicit Types (V : seq C) (N : nat).

Lemma for_each_cat (S I : Type) (r1 r2 : seq I) (body : I -> S -> result S)
    (s : S) :
  for_each (r1 ++ r2) body s =
  do s' <- for_each r1 body s; for_each r2 body s'.
Proof.
elim: r1 s => [|i r1 IH] s //=.
by case: (body i s) => //= s'; rewrite IH.
Qed.

Lemma for_each_all_ok (S : Type) (I : eqType) (r : seq I)
    (body : I -> S -> result S) (s : S) :
  (forall j s', j \in r -> is_ok (body j s')) -> is_ok (for_each r body s).
Proof.
elim: r s => [|i r IH] s Hok //=.
have := Hok i s (mem_head _ _); case: (body i s) => //= s' _.
by apply: IH => j s'' Hj; apply: Hok; rewrite in_cons Hj orbT.
Qed.

Lemma for_each_raise (S : Type) (I : eqType) (r1 r2 : seq I) (i : I)
    (body : I -> S -> result S) (e : exn) (s : S) :
  (forall j s', j \in r1 -> is_ok (body j s')) ->
  (forall s', body i s' = Raise e) ->
  for_each (r1 ++ i :: r2) body s = Raise e.
Proof.
move=> Hok Hi; rewrite for_each_cat.
have := for_each_all_ok s Hok; case: (for_each r1 body s) => //= s' _.
by rewrite Hi.
Qed.

(** [range(N)], cut at an index [i]. *)
Lemma enum_ord_split N (i : 'I_N) :
  enum 'I_N = take i (enum 'I_N) ++ i :: drop i.+1 (enum 'I_N).
Proof.
rewrite -{1}(cat_take_drop i (enum 'I_N)); congr (_ ++ _).
by rewrite (drop_nth i) ?size_enum_ord // nth_ord_enum.
Qed.

Lemma mem_take_enum N (i j : 'I_N) : j \in take i (enum 'I_N) -> (j < i)%N.
Proof.
move=> Hj; have : val j \in [seq val k | k <- take i (enum 'I_N)].
  exact: map_f.
by rewrite map_take val_enum_ord take_iota mem_iota add0n
          (minn_idPl (ltnW (ltn_ord i))).
Qed.

Lemma construct_body_ok N V a1 a2 b1 b2 J (i l : 'I_N) AB :
  (i < size V)%N || (i != l) -> is_ok (construct_body V a1 a2 b1 b2 J i l AB).
Proof.
case: AB => A B; rewrite /construct_body /getitem.
case: (altP (i =P l)) => [_|_ _]; last by case: ifP.
by rewrite orbF => ->.
Qed.

Lemma construct_inner_short N V a1 a2 b1 b2 J (i0 : 'I_N) AB :
  (i0 : nat) = size V ->
  for_each (enum 'I_N) (construct_body V a1 a2 b1 b2 J i0) AB =
  Raise UncheckedRead.
Proof.
move=> Hi0; rewrite (enum_ord_split i0); apply: for_each_raise.
  move=> l AB' Hl; have {}Hl := mem_take_enum Hl.
  by apply: construct_body_ok; rewrite -val_eqE /= gtn_eqF ?orbT.
by case=> A B; rewrite /construct_body eqxx /getitem Hi0 ltnn.
Qed.

Lemma construct_AB_short N V a1 a2 b1 b2 J :
  (size V < N)%N -> construct_AB N V a1 a2 b1 b2 J = Raise UncheckedRead.
Proof.
move=> Hk; pose i0 := Ordinal Hk.
rewrite /construct_AB [X in for_each X _ _](enum_ord_split i0).
apply: for_each_raise; last by move=> AB; apply: construct_inner_short.
move=> i AB Hi; have {}Hi := mem_take_enum Hi.
apply: for_each_all_ok => l AB' _.
by apply: construct_body_ok; rewrite Hi.
Qed.

(** X1.  The outcome of [_construct_U], whatever it is given: a zero [m], [dx]
    or [hbar] raises [ZeroDivisionError]; otherwise a potential with fewer
    than [N] samples sends the compiled loop past the end of the buffer;
    otherwise the result is [inv(A) . B], or [LinAlgError] when [A] is
    singular. *)
Theorem construct_U_outcome V (m hbar : C) N (dx dt : C) :
  _construct_U V m hbar N dx dt =
  if [|| m == 0, dx == 0 | hbar == 0] then Raise ZeroDivisionError
  else if (size V < N)%N then Raise UncheckedRead
  else if spec_A N V m hbar dx dt \in unitmx
       then Ok (invmx (spec_A N V m hbar dx dt) *m spec_B N V m hbar dx dt)
       else Raise LinAlgError.
Proof.
case: (altP (m =P 0)) => [->|Hm] /=.
  by rewrite /_construct_U /py_div mulr0 mul0r eqxx.
case: (altP (dx =P 0)) => [->|Hdx] /=.
  by rewrite /_construct_U /py_div expr0n mulr0 eqxx.
case: (altP (hbar =P 0)) => [->|Hh] /=.
  by rewrite /_construct_U (py_div_ok _ (denom_K_neq0 Hm Hdx)) /= /py_div mulr0 eqxx.
case: (ltnP (size V) N) => HN; last exact: construct_UE.
rewrite /_construct_U (py_div_ok _ (denom_K_neq0 Hm Hdx)).
by rewrite (py_div_ok _ (denom_J_neq0 Hh)) /= construct_AB_short.
Qed.

End PropagatorEdges.

Section PropagatorAlgebra.

Variable C : numClosedFieldType.
Implicit Types (V : seq C) (N : nat).

Lemma tridiag_sym N (d : nat -> C) (o : C) : (tridiag N d o)^T = tridiag N d o.
Proof.
apply/matrixP => a b; rewrite !mxE eq_sym orbC.
by case: (altP (a =P b)) => [->|].
Qed.

Lemma inv_comm N (A B : 'M[C]_N) :
  A \in unitmx -> A + B = 2%:M -> invmx A *m B = B *m invmx A.
Proof.
move=> HA Hsum.
have HB : B = 2%:M - A by rewrite -Hsum addrC addKr.
have Hcomm : A *m B = B *m A.
  by rewrite HB mulmxBr mulmxBl mul_mx_scalar mul_scalar_mx.
rewrite -[LHS]mulmx1 -(mulmxV HA) mulmxA -[_ *m B *m A]mulmxA -Hcomm.
by rewrite !mulmxA (mulVmx HA) mul1mx.
Qed.

(** X2.  Whatever the potential (real or complex), a propagator that
    [_construct_U] returns is a symmetric matrix. *)
Theorem propagator_symmetric V (m hbar : C) N (dx dt : C) (U : 'M[C]_N) :
  _construct_U V m hbar N dx dt = Ok U -> U^T = U.
Proof.
rewrite construct_U_outcome; case: ifP => // _; case: ifP => // _.
case: ifP => // HA [<-].
rewrite trmx_mul trmx_inv /spec_A /spec_B !tridiag_sym.
by rewrite -/(spec_A N V m hbar dx dt) -/(spec_B N V m hbar dx dt)
           (inv_comm HA (spec_A_plus_B V N m hbar dx dt)).
Qed.

Lemma spec_K_opp (m hbar dx dt : C) :
  spec_K m hbar dx (- dt) = - spec_K m hbar dx dt.
Proof. by rewrite /spec_K !mulNr. Qed.

Lemma spec_J_opp (hbar dt : C) : spec_J hbar (- dt) = - spec_J hbar dt.
Proof. by rewrite /spec_J !mulNr. Qed.

Lemma spec_A_opp V N (m hbar dx dt : C) :
  spec_A N V m hbar dx (- dt) = spec_B N V m hbar dx dt.
Proof.
rewrite /spec_A /spec_B spec_K_opp spec_J_opp opprK.
by apply: eq_tridiag => // i _; rewrite mulrN mulNr.
Qed.

Lemma spec_B_opp V N (m hbar dx dt : C) :
  spec_B N V m hbar dx (- dt) = spec_A N V m hbar dx dt.
Proof.
rewrite /spec_A /spec_B spec_K_opp spec_J_opp.
by apply: eq_tridiag => // i _; rewrite mulrN mulNr !opprK.
Qed.

(** X3.  Time reversal: the propagator built with the time step [-dt] undoes
    the propagator built with [dt]. *)
Theorem time_reversal V (m hbar : C) N (dx dt : C) (U U' : 'M[C]_N) :
  _construct_U V m hbar N dx dt = Ok U ->
  _construct_U V m hbar N dx (- dt) = Ok U' ->
  U' *m U = 1%:M /\ U *m U' = 1%:M.
Proof.
rewrite !construct_U_outcome; case: ifP => // _; case: ifP => // _.
rewrite spec_A_opp spec_B_opp.
case: ifP => // HA [<-]; case: ifP => // HB [<-].
have H1 : invmx (spec_B N V m hbar dx dt) *m spec_A N V m hbar dx dt *m
          (invmx (spec_A N V m hbar dx dt) *m spec_B N V m hbar dx dt) = 1%:M.
  by rewrite mulmxA mulmxK // mulVmx.
by split=> //; apply: mulmx1C.
Qed.

(** On a grid with real constants and a real potential, the reversed
    propagator exists whenever the forward one does. *)
Lemma time_reversal_exists V (m hbar : C) N (dx dt : C) :
  m \is Num.real -> hbar \is Num.real -> dx \is Num.real ->
  dt \is Num.real -> real_seq V ->
  is_ok (_construct_U V m hbar N dx dt) ->
  is_ok (_construct_U V m hbar N dx (- dt)).
Proof.
move=> Hm Hh Hdx Hdt HV; rewrite !construct_U_outcome.
case: ifP => // _; case: ifP => // _ _.
by rewrite spec_A_unit // rpredN.
Qed.

End PropagatorAlgebra.

Section OperatorTheory.

Variable C : numClosedFieldType.
Implicit Types (V : seq C) (N : nat).

Lemma daggerZ p q (s : C) (X : 'M[C]_(p, q)) : dagger (s *: X) = s^* *: dagger X.
Proof. by apply/matrixP => i j; rewrite !mxE rmorphM. Qed.

(** X4.  The Hamiltonian that [Set_Hamiltonian] stores generates the propagator
    it was taken from: [U = I + (dt/(i*hbar)) H]. *)
Theorem hamiltonian_generates_propagator (self : Unitary_Operator_1D.t C) :
  Constants.dt (Unitary_Operator_1D.consts self) != 0 ->
  Constants.hbar (Unitary_Operator_1D.consts self) != 0 ->
  exists2 H, Set_Hamiltonian self = Ok H &
    Unitary_Operator_1D.U self =
    Unitary_Operator_1D.I self +
    (Constants.dt (Unitary_Operator_1D.consts self) /
     ('i * Constants.hbar (Unitary_Operator_1D.consts self))) *: H.
Proof.
move=> Hdt Hh; rewrite /Set_Hamiltonian (py_div_ok _ Hdt) /=.
eexists; first by [].
rewrite /_mat_diff scalerA.
have -> : Constants.dt (Unitary_Operator_1D.consts self) /
            ('i * Constants.hbar (Unitary_Operator_1D.consts self)) *
          ('i * Constants.hbar (Unitary_Operator_1D.consts self) /
             Constants.dt (Unitary_Operator_1D.consts self)) = 1.
  by rewrite mulrA divfK ?divff // mulf_neq0 // neq0Ci.
by rewrite scale1r addrC subrK.
Qed.

(** Without a time step there is no Hamiltonian: the division raises. *)
Lemma Set_Hamiltonian_dt0 (self : Unitary_Operator_1D.t C) :
  Constants.dt (Unitary_Operator_1D.consts self) = 0 ->
  Set_Hamiltonian self = Raise ZeroDivisionError.
Proof. by move=> Hdt; rewrite /Set_Hamiltonian /py_div Hdt eqxx. Qed.

Lemma mat_diff_normal N (s : C) (U : 'M[C]_N) :
  dagger U *m U = 1%:M ->
  _mat_diff s U 1%:M *m dagger (_mat_diff s U 1%:M) =
  dagger (_mat_diff s U 1%:M) *m _mat_diff s U 1%:M.
Proof.
move=> HU; have HU' := mulmx1C HU.
rewrite /_mat_diff daggerZ daggerB dagger1.
rewrite -!scalemxAl -!scalemxAr !scalerA [s * _]mulrC; congr (_ *: _).
rewrite !mulmxBl !mulmxBr !mulmx1 !mul1mx HU HU'.
by rewrite !opprB addrC.
Qed.

(** On a valid grid with real scale and a real potential of at least [N]
    samples, the constructor succeeds, its matrix [U] is unitary and its
    [I] is the identity. *)
Lemma init_real_unitary (g : Constants.t C) V :
  valid_GridConfig g -> Constants._scale g \is Num.real -> real_seq V ->
  (Constants.N g <= size V)%N ->
  exists U : 'M[C]_(Constants.N g),
    Unitary_Operator_1D__init__with g (PotentialArray V) =
    Ok (@Unitary_Operator_1D.Make C g U 1%:M) /\
    dagger U *m U = 1%:M.
Proof.
move=> Hg Hs HV HN.
have [Hm Hh Hdx Hdt] := valid_GridConfig_real Hg.
have [Hm0 Hh0 Hdx0] := valid_GridConfig_neq0 Hg.
have HV' := real_seq_scale Hs HV.
eexists; split.
  rewrite /Unitary_Operator_1D__init__with /= construct_UE ?size_map //.
  by rewrite (spec_A_unit _ Hm Hh Hdx Hdt HV').
exact: (spec_U_unitary _ Hm Hh Hdx Hdt HV').
Qed.

(** X5.  For a real potential on a valid grid the Hamiltonian taken from the
    propagator is a normal matrix: it commutes with its conjugate
    transpose. *)
Theorem hamiltonian_normal (g : Constants.t C) V :
  valid_GridConfig g -> Constants._scale g \is Num.real -> real_seq V ->
  (Constants.N g <= size V)%N ->
  exists (op : Unitary_Operator_1D.t C)
         (H : 'M[C]_(Constants.N (Unitary_Operator_1D.consts op))),
    [/\ Unitary_Operator_1D__init__with g (PotentialArray V) = Ok op,
        Set_Hamiltonian op = Ok H
      & H *m dagger H = dagger H *m H].
Proof.
move=> Hg Hs HV HN.
have [U [Hinit HU]] := init_real_unitary Hg Hs HV HN.
have Hdt : Constants.dt g != 0 by case/and5P: Hg => _ _ _ _ /and3P [].
exists (@Unitary_Operator_1D.Make C g U 1%:M); rewrite /Set_Hamiltonian /=.
rewrite (py_div_ok _ Hdt) /=; eexists; split=> //.
exact: mat_diff_normal.
Qed.

End OperatorTheory.

Section EvolutionTheory.

Variable C : numClosedFieldType.
Implicit Types (V : seq C) (N : nat).

Lemma size_seq_of_col N (v : 'cV[C]_N) : size (seq_of_col v) = N.
Proof. by rewrite size_map size_enum_ord. Qed.

Lemma seq_of_colK N (a : seq C) :
  size a = N -> seq_of_col (col_of_seq N a) = a.
Proof.
move=> Ha; rewrite /seq_of_col /col_of_seq.
have -> : [seq (\col_(i < N) nth 0 a i) i 0 | i <- enum 'I_N] =
          [seq nth 0 a (val i) | i <- enum 'I_N].
  by apply: eq_map => i; rewrite mxE.
by rewrite (map_comp (nth 0 a) val) val_enum_ord -Ha -/(mkseq _ _) mkseq_nth.
Qed.

Lemma sum_abs2_seq_of_col N (v : 'cV[C]_N) :
  np_sum (abs2 (seq_of_col v)) = norm2 v.
Proof.
rewrite /np_sum /abs2 /seq_of_col -map_comp big_map /norm2.
by rewrite big_enum.
Qed.

(** X6.  The sum of [|psi_i|^2] over the samples is what the propagator of a
    real potential conserves, for any number of steps; the array keeps its
    length and the constants are not touched. *)
Theorem evolution_conserves_probability (g : Constants.t C) V
    (w : Wavefunction_1D.t C) (k : nat) :
  valid_GridConfig g -> Constants._scale g \is Num.real -> real_seq V ->
  (Constants.N g <= size V)%N ->
  size (Wavefunction_1D.x w) = Constants.N g ->
  exists (op : Unitary_Operator_1D.t C) (w' : Wavefunction_1D.t C),
    [/\ Unitary_Operator_1D__init__with g (PotentialArray V) = Ok op,
        evolve k op w = Ok w',
        size (Wavefunction_1D.x w') = Constants.N g,
        Wavefunction_1D.consts w' = Wavefunction_1D.consts w
      & np_sum (abs2 (Wavefunction_1D.x w')) =
        np_sum (abs2 (Wavefunction_1D.x w))].
Proof.
move=> Hg Hs HV HN Hw.
have [U [Hinit HU]] := init_real_unitary Hg Hs HV HN.
exists (@Unitary_Operator_1D.Make C g U 1%:M).
elim: k w Hw => [|k IH] w Hw; first by exists w.
pose w1 := set_x w (seq_of_col (U *m col_of_seq (Constants.N g)
                                        (Wavefunction_1D.x w))).
have Hw1 : size (Wavefunction_1D.x w1) = Constants.N g.
  by rewrite size_seq_of_col.
have [w' [_ Hev Hsz Hc Hn]] := IH w1 Hw1.
exists w'; split=> //.
- by rewrite /= /Unitary_Operator_1D__call__ /= Hw eqxx.
- rewrite Hn /w1 /= sum_abs2_seq_of_col unitary_norm2 //.
  by rewrite -sum_abs2_seq_of_col seq_of_colK.
Qed.

End EvolutionTheory.

Section GridShape.

Variable C : numClosedFieldType.

(** X7.  The grid both constructors sample on, for any constants with at least
    two points: [N] samples, the first at [x0], the last at [L + x0], any
    two neighbours [L/(N-1)] apart. *)
Theorem grid_shape (g : Constants.t C) :
  (1 < Constants.N g)%N ->
  [/\ size (grid g) = Constants.N g,
      nth 0 (grid g) 0 = Constants.x0 g,
      nth 0 (grid g) (Constants.N g).-1 = Constants.L g + Constants.x0 g
    & forall i, (i.+1 < Constants.N g)%N ->
        nth 0 (grid g) i.+1 - nth 0 (grid g) i =
        Constants.L g / (Constants.N g).-1%:R].
Proof.
move=> HN; have H0 : (0 < Constants.N g)%N by apply: ltn_trans HN.
split.
- by rewrite /grid /linspace size_mkseq.
- by rewrite grid_spacing // mul0r addr0.
- by rewrite /grid /linspace nth_mkseq ?HN ?eqxx // prednK.
- move=> i Hi; have Hi' : (i < Constants.N g)%N by exact: ltnW.
  rewrite (grid_spacing HN Hi) (grid_spacing HN Hi').
  by rewrite -natr1; ring.
Qed.

End GridShape.

Section NormalizeTheory.

Variable C : numClosedFieldType.
Implicit Types (self : Wavefunction_1D.t C) (err : np_err).

(** X8.  [normalize] never raises; when it leaves finite values, the array has
    kept its length and the constants are the same. *)
Theorem normalize_frame err self :
  ret (normalize err self) = Ok tt /\
  forall s', self_after (normalize err self) = Fin s' ->
    Wavefunction_1D.consts s' = Wavefunction_1D.consts self /\
    size (Wavefunction_1D.x s') = size (Wavefunction_1D.x self).
Proof.
rewrite /normalize /np_true_divide.
case: ifP => _; first by case: err; split=> // s' [<-].
by split=> // s' [<-]; rewrite /= size_map.
Qed.

Lemma norm_squared_scale self (c : C) :
  norm_squared (set_x self [seq c * v | v <- Wavefunction_1D.x self]) =
  `|c| ^+ 2 * norm_squared self.
Proof.
rewrite /norm_squared /= -map_comp.
have -> : [seq ((fun v => v^* * v) \o (fun v => c * v)) v
          | v <- Wavefunction_1D.x self] =
          [seq `|c| ^+ 2 * w | w <- [seq v^* * v | v <- Wavefunction_1D.x self]].
  rewrite -map_comp; apply: eq_map => v /=.
  by rewrite rmorphM /= normCK mulrACA [c^* * c]mulrC.
by rewrite trapz_scale.
Qed.

(** X9.  Scaling a wavefunction by a non-zero number [c] changes its normalized
    form by the phase [c/|c|] only; for a positive [c], not at all. *)
Theorem normalize_scale err self (c : C) :
  c != 0 -> 0 < norm_squared self ->
  normalize err (set_x self [seq c * v | v <- Wavefunction_1D.x self]) =
  Run (Ok tt)
      (Fin (set_x self [seq (c / `|c|) * (v / sqrtC (norm_squared self))
                       | v <- Wavefunction_1D.x self])) [::].
Proof.
move=> Hc Hpos.
have Hc2 : 0 < `|c| ^+ 2 by rewrite exprn_gt0 // normr_gt0.
have Hpos' : 0 < norm_squared
    (set_x self [seq c * v | v <- Wavefunction_1D.x self]).
  by rewrite norm_squared_scale mulr_gt0.
rewrite (normalize_pos _ Hpos') norm_squared_scale.
rewrite sqrtCM ?nnegrE ?ltW // sqrCK // /set_x /= -map_comp.
congr (Run _ (Fin (Wavefunction_1D.Make _ _)) _).
by apply: eq_map => v /=; rewrite mulf_div.
Qed.

End NormalizeTheory.

Section TrapezoidTheory.

Variable C : numClosedFieldType.

Lemma trapz_cons2 (a b : C) (s : seq C) (d : C) :
  trapz (a :: b :: s) d = d * (b + a) / 2 + trapz (b :: s) d.
Proof. by rewrite /trapz /= big_nat_recl. Qed.

Lemma trapz_closed_form (y : seq C) (d : C) :
  trapz y d = d * (np_sum y - (nth 0 y 0 + last 0 y) / 2).
Proof.
have H2 : (2 : C) != 0 by rewrite pnatr_eq0.
case: y => [|a s]; first by rewrite /trapz /np_sum /= !big_nil; field.
elim: s a => [|b s IH] a.
  by rewrite /trapz /np_sum /= big_nil big_cons big_nil; field.
rewrite trapz_cons2 IH /np_sum /= !big_cons.
by field.
Qed.

(** X10.  The integral [normalize] divides by is [dx] times the plain sum of
    [|psi_i|^2] less half of the two end terms. *)
Theorem norm_squared_closed_form (self : Wavefunction_1D.t C) :
  norm_squared self =
  Constants.dx (Wavefunction_1D.consts self) *
  (np_sum (abs2 (Wavefunction_1D.x self)) -
   (nth 0 (abs2 (Wavefunction_1D.x self)) 0 +
    last 0 (abs2 (Wavefunction_1D.x self))) / 2).
Proof.
rewrite /norm_squared trapz_closed_form.
have -> : [seq v^* * v | v <- Wavefunction_1D.x self] =
          abs2 (Wavefunction_1D.x self).
  by apply: eq_map => v; rewrite normCK mulrC.
by [].
Qed.

End TrapezoidTheory.

Section MeasurementTheory.

Variable C : numClosedFieldType.
Implicit Types (self : Wavefunction_1D.t C) (err : np_err).

Lemma expectation_valueE r c err self (eigenvalues : seq C)
    (E : 'M[C]_(r, c)) :
  size (Wavefunction_1D.x self) = r -> size eigenvalues = c -> (0 < c)%N ->
  expectation_value err self eigenvalues E =
  Run (Ok (Fin (\sum_(0 <= k < c)
                  'Re (nth 0 eigenvalues k) *
                  nth 0 (renormalized (overlaps self E)) k)))
      (Fin self) [::].
Proof.
move=> Hr Hev Hc.
rewrite /expectation_value eigen_probE // /np_dot_fl Hev eqxx /=.
rewrite /np_dot size_map Hev size_renormalized size_overlaps eqxx /=.
congr (Run (Ok (Fin _)) _ _); rewrite big_nat [RHS]big_nat.
by apply: eq_bigr => k /andP [_ Hk]; rewrite (nth_map 0) ?Hev.
Qed.

Lemma np_sum_nth (p : seq C) : np_sum p = \sum_(0 <= k < size p) nth 0 p k.
Proof. by rewrite /np_sum (big_nth 0). Qed.

(** X11.  An expectation value is an average: it lies between any two bounds
    that hold for the real parts of all the eigenvalues. *)
Theorem expectation_value_bounds r c err self (eigenvalues : seq C)
    (E : 'M[C]_(r, c)) (lo hi : C) :
  size (Wavefunction_1D.x self) = r -> size eigenvalues = c ->
  ~~ allzero (overlaps self E) ->
  (forall k, (k < c)%N -> lo <= 'Re (nth 0 eigenvalues k) <= hi) ->
  exists2 v : C,
    expectation_value err self eigenvalues E =
    Run (Ok (Fin v)) (Fin self) [::] & lo <= v <= hi.
Proof.
move=> Hr Hev Hnz Hb.
have Hc : (0 < c)%N.
  rewrite lt0n; apply: contraNneq Hnz => Hc0.
  have : size (overlaps self E) = 0%N by rewrite size_overlaps.
  by move/size0nil ->.
set p := renormalized (overlaps self E).
have Hp : nonneg p := renormalized_nonneg (overlaps_nonneg self E).
have Hsum : \sum_(0 <= k < c) nth 0 p k = 1.
  rewrite -[c](size_overlaps self E) -(size_renormalized (overlaps self E)).
  by rewrite -np_sum_nth np_sum_renormalized // overlaps_nonneg.
have Hpk k : (k < c)%N -> 0 <= nth 0 p k.
  move=> Hk; apply: (allP Hp); apply: mem_nth.
  by rewrite size_renormalized size_overlaps.
eexists; first exact: expectation_valueE.
rewrite -/p -[lo]mulr1 -[hi]mulr1 -Hsum !mulr_sumr.
apply/andP; split; rewrite big_nat [X in _ <= X]big_nat; apply: ler_sum.
  by move=> k /andP [_ Hk]; case/andP: (Hb k Hk) => Hlo _; rewrite ler_wpM2r ?Hpk.
by move=> k /andP [_ Hk]; case/andP: (Hb k Hk) => _ Hhi; rewrite ler_wpM2r ?Hpk.
Qed.

Lemma overlaps_scale r c self (E : 'M[C]_(r, c)) (a : C) :
  overlaps (set_x self [seq a * v | v <- Wavefunction_1D.x self]) E =
  [seq `|a| ^+ 2 * q | q <- overlaps self E].
Proof.
rewrite /overlaps -map_comp; apply: eq_map => k /=.
rewrite -exprMn -normrM mulr_sumr; congr (`|_| ^+ 2).
apply: eq_bigr => j _.
case: (ltnP j (size (Wavefunction_1D.x self))) => Hj.
  by rewrite (nth_map 0) // mulrA.
by rewrite !nth_default ?size_map // mul0r mulr0.
Qed.

Lemma renormalized_scale (p : seq C) (a : C) :
  a != 0 -> renormalized [seq a * q | q <- p] = renormalized p.
Proof.
move=> Ha; rewrite /renormalized.
have -> : allzero [seq a * q | q <- p] = allzero p.
  rewrite /allzero all_map; apply: eq_all => q /=.
  by rewrite mulf_eq0 (negPf Ha).
case: ifP => [Hz|_].
  rewrite -[RHS]map_id; apply/eq_in_map => q Hq /=.
  by rewrite (eqP (allP Hz q Hq)) mulr0.
have -> : np_sum [seq a * q | q <- p] = a * np_sum p.
  by rewrite /np_sum big_map mulr_sumr.
rewrite -map_comp; apply: eq_map => q /=.
by rewrite -mulf_div divff // mul1r.
Qed.

(** X12.  The expectation value does not depend on the scale or the phase of the
    wavefunction: multiplying [psi] by a non-zero number leaves it as it is. *)
Theorem expectation_value_scale_invariant r c err self
    (eigenvalues : seq C) (E : 'M[C]_(r, c)) (a : C) :
  a != 0 ->
  size (Wavefunction_1D.x self) = r -> size eigenvalues = c -> (0 < c)%N ->
  ret (expectation_value err
         (set_x self [seq a * v | v <- Wavefunction_1D.x self])
         eigenvalues E) =
  ret (expectation_value err self eigenvalues E).
Proof.
move=> Ha Hr Hev Hc.
rewrite !expectation_valueE ?size_map //= overlaps_scale renormalized_scale //.
by rewrite expf_neq0 // normr_eq0.
Qed.

End MeasurementTheory.

Section CollapseTheory.

Variable C : numClosedFieldType.
Implicit Types (self : Wavefunction_1D.t C) (err : np_err).

(** X14.  The draw never selects an entry of weight zero. *)
Theorem choice_never_draws_zero_weight (A : Type) (a : seq A) (p : seq C)
    (u : C) (v : A) :
  0 <= u < 1 -> np_random_choice a p u = Ok v ->
  exists k, [/\ (k < size a)%N, v = nth v a k & 0 < nth 0 p k].
Proof.
move=> Hu; rewrite /np_random_choice; case: a => [|a0 a] //.
case: (altP (size p =P size (a0 :: a))) => //= Hsz.
rewrite -/(nonneg p); case Hpos : (nonneg p) => //=.
case: (altP (np_sum p =P 1)) => //= Hsum.
have Hne : p != [::] by rewrite -size_eq0 Hsz.
have [Hk Hlo Hhi] := choice_indexP Hne Hpos Hsum Hu.
rewrite Hsz /= in Hk; rewrite Hk => -[Hv].
exists (choice_index p u); split=> //.
  by rewrite -Hv; apply: set_nth_default.
by have := le_lt_trans Hlo Hhi; rewrite ltrDl.
Qed.

(** X13.  On a wavefunction with no overlap with any eigenvector (the zero
    wavefunction, say), [set_to_eigenstate] raises [ValueError] from the
    draw and leaves the object as it was, where [expectation_value] returns
    0. *)
Theorem set_to_eigenstate_no_overlap r c err self (eigenvalues : seq C)
    (E : 'M[C]_(r, c)) (u : C) :
  size (Wavefunction_1D.x self) = r -> allzero (overlaps self E) ->
  set_to_eigenstate err self eigenvalues E u =
  Run (Raise ValueError) (Fin self) [::].
Proof.
move=> Hr Hz; rewrite /set_to_eigenstate.
case: (posnP c) => Hc.
  rewrite /eigen_prob /np_dot_mx Hr eqxx /=.
  have -> : enum 'I_c = [::].
    by apply: size0nil; rewrite size_enum_ord.
  by [].
rewrite eigen_probE //= /renormalized Hz /np_random_choice.
have Hsz : size (overlaps self E) = size (iota 0 c).
  by rewrite size_overlaps size_iota.
case Ha : (iota 0 c) Hsz => [|a0 a] Hsz //.
rewrite Hsz eqxx /= -/(nonneg _) overlaps_nonneg /=.
have -> : np_sum (overlaps self E) = 0.
  by apply/eqP; rewrite np_sum_eq0 ?overlaps_nonneg.
by rewrite eq_sym oner_eq0.
Qed.

Section Momentum.

Variable pi : C.
Variable expi : C -> C.

(** X15.  The momentum methods work on arrays of the grid's length only: on any
    other array [expected_momentum] raises [ValueError], and so does
    [set_to_momentum_eigenstate], which leaves the object as it was. *)
Theorem momentum_needs_grid_length err self (u : C) :
  let g := Wavefunction_1D.consts self in
  size (Wavefunction_1D.x self) != Constants.N g ->
  (0 < Constants.N g)%N -> Constants.dx g != 0 -> Constants.L g != 0 ->
  ret (expected_momentum pi expi err self) = Raise ValueError /\
  set_to_momentum_eigenstate pi expi err self u =
  Run (Raise ValueError) (Fin self) [::].
Proof.
move=> g Hsz HN Hdx HL.
rewrite /expected_momentum /expected_momentum_value
        /set_to_momentum_eigenstate -/g.
case: (altP (Wavefunction_1D.x self =P [::])) => [Hx|Hne].
  by rewrite /momentum_prob /np_fft_fft Hx.
have [F HF HsF] := np_fft_fft_ok pi expi Hne.
have HFne : F != [::] by rewrite -size_eq0 HsF size_eq0.
have [freq Hfreq Hsfreq] := np_fft_fftfreq_ok HN Hdx.
rewrite (momentum_probE _ HF HFne) /= Hfreq /=.
rewrite /np_true_divide (negPf HL) /= /np_dot_fl Hsfreq HsF.
rewrite eq_sym Hsz /=; split=> //.
rewrite /np_random_choice; case: freq Hsfreq {Hfreq} => [|f0 freq] Hsfreq.
  by move: HN; rewrite -Hsfreq.
by rewrite size_renormalized size_map HsF Hsfreq Hsz.
Qed.

End Momentum.

End CollapseTheory.

Section RealPropagator.

Variable C : numClosedFieldType.

Lemma construct_U_real (V : seq C) (m hbar : C) (N : nat) (dx dt : C) :
  m \is Num.real -> hbar \is Num.real -> dx \is Num.real ->
  dt \is Num.real -> real_seq V ->
  m != 0 -> hbar != 0 -> dx != 0 -> (N <= size V)%N ->
  _construct_U V m hbar N dx dt =
  Ok (invmx (spec_A N V m hbar dx dt) *m spec_B N V m hbar dx dt).
Proof.
move=> Hm Hh Hdx Hdt HV Hm0 Hh0 Hdx0 HN.
by rewrite construct_UE // spec_A_unit.
Qed.

End RealPropagator.

(** * Instances over the algebraic numbers

    The statements above hold in every algebraically closed numeric field.
    Here they are applied to concrete data in [algC]. *)

Lemma small_grid_valid : valid_GridConfig (small_grid algC).
Proof. by rewrite /valid_GridConfig /= !ltr01 eqxx rpred1 oner_neq0. Qed.

Lemma real_seq_two_zeros : real_seq [:: 0; 0 : algC].
Proof. by rewrite /real_seq /= rpred0. Qed.

Lemma half_neq0 : (1 / 2 : algC) != 0.
Proof. by rewrite mulf_neq0 ?oner_neq0 // invr_eq0 pnatr_eq0. Qed.

Lemma construct_U_unitary_real_potential_witness :
  [/\ valid_GridConfig (small_grid algC),
      size [:: 0; 0 : algC] = Constants.N (small_grid algC),
      real_seq [:: 0; 0 : algC]
    & exists U : 'M[algC]_(Constants.N (small_grid algC)),
        [/\ _construct_U [:: 0; 0] (Constants.m (small_grid algC))
               (Constants.hbar (small_grid algC))
               (Constants.N (small_grid algC))
               (Constants.dx (small_grid algC))
               (Constants.dt (small_grid algC)) = Ok U,
            dagger U *m U = 1%:M
          & forall psi, vnorm (_time_evolve_wavefunction U psi) = vnorm psi]].
Proof.
split; [exact: small_grid_valid | by [] | exact: real_seq_two_zeros |].
exact: (@construct_U_unitary_real_potential algC (small_grid algC)
          [:: 0; 0 : algC] small_grid_valid (erefl _) real_seq_two_zeros).
Defined.

(** C1 as stated fails: on a valid grid, the propagator built from a
    potential with an imaginary part is returned and is not unitary. *)
Lemma construct_U_not_unitary_complex_potential :
  [/\ valid_GridConfig (small_grid algC),
      size (absorbing_potential algC) = Constants.N (small_grid algC)
    & exists U : 'M[algC]_2,
        _construct_U (absorbing_potential algC) 1 1 2 (1 / 2) 1 = Ok U /\
        dagger U *m U <> 1%:M].
Proof.
split; [exact: small_grid_valid | by [] |].
exact: absorbing_potential_breaks_unitarity.
Qed.

Lemma construct_U_crank_nicolson_witness :
  [/\ size [:: 0; 0 : algC] = 2%N, (1 : algC) != 0, (1 / 2 : algC) != 0
    & exists A B : 'M[algC]_2,
        _construct_U [:: 0; 0] 1 1 2 (1 / 2) 1 =
        if A \in unitmx then Ok (invmx A *m B) else Raise LinAlgError].
Proof.
split; [by [] | exact: oner_neq0 | exact: half_neq0 |].
have [A [B [_ _ _ HU]]] :=
  @construct_U_crank_nicolson algC [:: 0; 0 : algC] 1 1 2 (1 / 2) 1 (erefl _)
    (oner_neq0 _) (oner_neq0 _) half_neq0.
by exists A, B.
Defined.



Lemma two_ones_norm : 0 < norm_squared (Wavefunction_1D.Make (small_grid algC) [:: 1; 1]).
Proof.
rewrite /norm_squared /trapz /= big_nat1 /= rmorph1 mulr1.
by rewrite !(divr_gt0, mulr_gt0, addr_gt0, ltr01, ltr0n).
Qed.

Lemma normalize_idempotent_witness :
  0 < norm_squared (Wavefunction_1D.Make (small_grid algC) [:: 1; 1]) /\
  exists s1 : Wavefunction_1D.t algC,
    [/\ normalize err_warn (Wavefunction_1D.Make (small_grid algC) [:: 1; 1]) =
        Run (Ok tt) (Fin s1) [::],
        normalize err_warn s1 = Run (Ok tt) (Fin s1) [::]
      & norm_squared s1 = 1].
Proof.
split; first exact: two_ones_norm.
exact: (normalize_idempotent err_warn two_ones_norm).
Defined.

Lemma expectation_value_spec_witness :
  [/\ size (Wavefunction_1D.x (Wavefunction_1D__init__ (WaveformArray (one_hot algC)))) = 3%N,
      size [:: 1; 2; 3 : algC] = 3%N, (0 < 3)%N
    & exists v : algC,
        expectation_value err_warn
          (Wavefunction_1D__init__ (WaveformArray (one_hot algC)))
          [:: 1; 2; 3] (1%:M : 'M[algC]_3) =
        Run (Ok (Fin v)) (Fin (Wavefunction_1D__init__ (WaveformArray (one_hot algC)))) [::]].
Proof.
split=> //.
have [mx [_ H _ _]] :=
  @expectation_value_spec algC 3 3 err_warn
    (Wavefunction_1D__init__ (WaveformArray (one_hot algC)))
    [:: 1; 2; 3 : algC] 1%:M (erefl _) (erefl _) isT.
by eexists; exact: H.
Defined.

Lemma one_hot_overlaps :
  ~~ allzero (overlaps (Wavefunction_1D__init__ (WaveformArray (one_hot algC)))
                       (1%:M : 'M[algC]_3)).
Proof.
by rewrite overlaps_identity // abs2_one_hot /allzero /= oner_eq0 andbF.
Qed.

Lemma zero_is_a_variate : (0 : algC) <= (0 : algC) < (1 : algC).
Proof. by rewrite lexx ltr01. Qed.

Lemma set_to_eigenstate_spec_witness :
  let self := Wavefunction_1D__init__ (WaveformArray (one_hot algC)) in
  let prob := renormalized (overlaps self (1%:M : 'M[algC]_3)) in
  exists k : 'I_3,
    eigen_prob err_warn self (1%:M : 'M[algC]_3) = Ok (Fin prob) /\
    choice_index prob 0 = k.
Proof.
have [k [H1 H2 _ _ _]] :=
  proj1 (set_to_eigenstate_spec algC) 3%N 3%N err_warn
    (Wavefunction_1D__init__ (WaveformArray (one_hot algC)))
    [:: 1; 2; 3 : algC] 1%:M 0 (erefl _) (erefl _) one_hot_overlaps
    zero_is_a_variate.
by exists k.
Defined.

Lemma expected_momentum_pure_witness :
  exists F freq : seq algC,
    np_fft_fft 3 (fun=> 1) [:: 1; 1] = Ok F /\
    np_fft_fftfreq 2 (1 / 2 : algC) = Ok freq.
Proof.
have [F [freq [H1 H2 _]]] :=
  proj2 (@expected_momentum_pure algC 3 (fun=> 1) err_warn
           (Wavefunction_1D.Make (small_grid algC) [:: 1; 1]))
        (erefl _) isT half_neq0 (oner_neq0 _).
by exists F, freq.
Defined.

Lemma momentum_collapse_constant_wave_witness :
  (fun _ : algC => (1 : algC)) 0 = 1 /\
  set_to_momentum_eigenstate 3 (fun=> 1) err_warn
    (Wavefunction_1D__init__ (WaveformArray (nseq 512 (1 : algC)))) 0 =
  Run (Ok (Fin 0)) NonFinite [::].
Proof.
split=> //.
exact: (proj1 (@momentum_collapse_constant_wave algC 3 (fun=> 1) (erefl _))).
Defined.

(** ** Instances of the further properties *)

Lemma one_real : (1 : algC) \is Num.real.
Proof. exact: rpred1. Qed.

Lemma half_real : (1 / 2 : algC) \is Num.real.
Proof. by rewrite rpred_div ?rpred1 ?realn. Qed.

Lemma small_U_ok (dt : algC) :
  dt \is Num.real ->
  _construct_U [:: 0; 0 : algC] 1 1 2 (1 / 2) dt =
  Ok (invmx (spec_A 2 [:: 0; 0] 1 1 (1 / 2) dt) *m
      spec_B 2 [:: 0; 0] 1 1 (1 / 2) dt).
Proof.
move=> Hdt.
by rewrite construct_U_real ?one_real ?half_real ?real_seq_two_zeros
           ?oner_neq0 ?half_neq0.
Qed.

Lemma propagator_symmetric_witness :
  exists U : 'M[algC]_2,
    _construct_U [:: 0; 0 : algC] 1 1 2 (1 / 2) 1 = Ok U /\ U^T = U.
Proof.
eexists; split; first exact: (small_U_ok one_real).
exact: (propagator_symmetric (small_U_ok one_real)).
Defined.

Lemma minus_one_real : (- 1 : algC) \is Num.real.
Proof. by rewrite rpredN rpred1. Qed.

Lemma time_reversal_witness :
  exists U U' : 'M[algC]_2,
    [/\ _construct_U [:: 0; 0 : algC] 1 1 2 (1 / 2) 1 = Ok U,
        _construct_U [:: 0; 0 : algC] 1 1 2 (1 / 2) (- 1) = Ok U'
      & U' *m U = 1%:M /\ U *m U' = 1%:M].
Proof.
eexists; eexists; split.
- exact: (small_U_ok one_real).
- exact: (small_U_ok minus_one_real).
- exact: (time_reversal (small_U_ok one_real) (small_U_ok minus_one_real)).
Defined.

Lemma hamiltonian_generates_propagator_witness :
  exists2 H : 'M[algC]_2,
    Set_Hamiltonian (@Unitary_Operator_1D.Make algC (small_grid algC) 1%:M 1%:M)
    = Ok H &
    (1%:M : 'M[algC]_2) = 1%:M + (1 / ('i * 1)) *: H.
Proof.
exact: (@hamiltonian_generates_propagator algC
          (@Unitary_Operator_1D.Make algC (small_grid algC) 1%:M 1%:M)
          (oner_neq0 _) (oner_neq0 _)).
Defined.

Lemma small_scale_real : Constants._scale (small_grid algC) \is Num.real.
Proof. exact: rpred1. Qed.

Lemma hamiltonian_normal_witness :
  exists (op : Unitary_Operator_1D.t algC)
         (H : 'M[algC]_(Constants.N (Unitary_Operator_1D.consts op))),
    [/\ Unitary_Operator_1D__init__with (small_grid algC)
          (PotentialArray [:: 0; 0]) = Ok op,
        Set_Hamiltonian op = Ok H
      & H *m dagger H = dagger H *m H].
Proof.
exact: (@hamiltonian_normal algC (small_grid algC) [:: 0; 0 : algC]
          small_grid_valid small_scale_real real_seq_two_zeros isT).
Defined.

Lemma evolution_conserves_probability_witness :
  exists (op : Unitary_Operator_1D.t algC) (w' : Wavefunction_1D.t algC),
    [/\ Unitary_Operator_1D__init__with (small_grid algC)
          (PotentialArray [:: 0; 0]) = Ok op,
        evolve 2 op (Wavefunction_1D.Make (small_grid algC) [:: 1; 1]) = Ok w',
        size (Wavefunction_1D.x w') = 2%N,
        Wavefunction_1D.consts w' = small_grid algC
      & np_sum (abs2 (Wavefunction_1D.x w')) = np_sum (abs2 [:: 1; 1 : algC])].
Proof.
exact: (@evolution_conserves_probability algC (small_grid algC)
          [:: 0; 0 : algC] (Wavefunction_1D.Make (small_grid algC) [:: 1; 1])
          2 small_grid_valid small_scale_real real_seq_two_zeros isT
          (erefl _)).
Defined.

Lemma grid_shape_witness :
  [/\ size (grid (small_grid algC)) = 2%N,
      nth 0 (grid (small_grid algC)) 0 = - (1 / 2),
      nth 0 (grid (small_grid algC)) 1 = 1 + - (1 / 2)
    & forall i, (i.+1 < 2)%N ->
        nth 0 (grid (small_grid algC)) i.+1 - nth 0 (grid (small_grid algC)) i =
        1 / 1%:R].
Proof. exact: (@grid_shape algC (small_grid algC) isT). Defined.

Lemma two_neq0 : (2 : algC) != 0.
Proof. by rewrite pnatr_eq0. Qed.

Lemma normalize_scale_witness :
  normalize err_warn
    (set_x (Wavefunction_1D.Make (small_grid algC) [:: 1; 1])
           [seq 2 * v | v <- [:: 1; 1 : algC]]) =
  Run (Ok tt)
      (Fin (set_x (Wavefunction_1D.Make (small_grid algC) [:: 1; 1])
              [seq (2 / `|2|) *
                   (v / sqrtC (norm_squared
                                 (Wavefunction_1D.Make (small_grid algC)
                                                       [:: 1; 1])))
              | v <- [:: 1; 1 : algC]])) [::].
Proof.
exact: (@normalize_scale algC err_warn
          (Wavefunction_1D.Make (small_grid algC) [:: 1; 1]) 2 two_neq0
          two_ones_norm).
Defined.

Lemma normalize_frame_witness :
  exists s' : Wavefunction_1D.t algC,
    [/\ self_after (normalize err_warn
                      (Wavefunction_1D.Make (small_grid algC) [:: 1; 1])) =
        Fin s',
        Wavefunction_1D.consts s' = small_grid algC
      & size (Wavefunction_1D.x s') = 2%N].
Proof.
pose psi := Wavefunction_1D.Make (small_grid algC) [:: 1; 1].
pose s1 := set_x psi [seq v / sqrtC (norm_squared psi) | v <- [:: 1; 1 : algC]].
have Hafter : self_after (normalize err_warn psi) = Fin s1.
  by rewrite (normalize_pos err_warn two_ones_norm).
have [Hc Hs] := proj2 (@normalize_frame algC err_warn psi) s1 Hafter.
by exists s1; split; [exact: Hafter | exact: Hc | exact: Hs].
Defined.

Lemma one_two_three_bounds (k : nat) :
  (k < 3)%N -> (1 : algC) <= 'Re (nth 0 [:: 1; 2; 3 : algC] k) <= 3.
Proof.
case: k => [|[|[|k]]] //= _.
- by rewrite (Creal_ReP _ _) ?rpred1 // lexx ler1n.
- by rewrite (Creal_ReP _ _) ?realn // ler1n ler_nat.
- by rewrite (Creal_ReP _ _) ?realn // ler1n lexx.
Qed.

Lemma expectation_value_bounds_witness :
  exists2 v : algC,
    expectation_value err_warn
      (Wavefunction_1D__init__ (WaveformArray (one_hot algC)))
      [:: 1; 2; 3] (1%:M : 'M[algC]_3) =
    Run (Ok (Fin v))
        (Fin (Wavefunction_1D__init__ (WaveformArray (one_hot algC)))) [::]
    & 1 <= v <= 3.
Proof.
exact: (@expectation_value_bounds algC 3 3 err_warn
          (Wavefunction_1D__init__ (WaveformArray (one_hot algC)))
          [:: 1; 2; 3 : algC] 1%:M 1 3 (erefl _) (erefl _) one_hot_overlaps
          one_two_three_bounds).
Defined.

Lemma expectation_value_scale_invariant_witness :
  ret (expectation_value err_warn
         (set_x (Wavefunction_1D__init__ (WaveformArray (one_hot algC)))
                [seq 2 * v | v <- one_hot algC])
         [:: 1; 2; 3] (1%:M : 'M[algC]_3)) =
  ret (expectation_value err_warn
         (Wavefunction_1D__init__ (WaveformArray (one_hot algC)))
         [:: 1; 2; 3] (1%:M : 'M[algC]_3)).
Proof.
exact: (@expectation_value_scale_invariant algC 3 3 err_warn
          (Wavefunction_1D__init__ (WaveformArray (one_hot algC)))
          [:: 1; 2; 3 : algC] 1%:M 2 two_neq0 (erefl _) (erefl _) isT).
Defined.

Lemma zero_wave_overlaps :
  allzero (overlaps (Wavefunction_1D__init__ (WaveformArray [:: 0; 0; 0 : algC]))
                    (1%:M : 'M[algC]_3)).
Proof.
by rewrite overlaps_identity // /abs2 /allzero /= normr0 expr0n eqxx.
Qed.

Lemma set_to_eigenstate_no_overlap_witness :
  set_to_eigenstate err_warn
    (Wavefunction_1D__init__ (WaveformArray [:: 0; 0; 0 : algC]))
    [:: 1; 2; 3] (1%:M : 'M[algC]_3) 0 =
  Run (Raise ValueError)
      (Fin (Wavefunction_1D__init__ (WaveformArray [:: 0; 0; 0 : algC]))) [::].
Proof.
exact: (@set_to_eigenstate_no_overlap algC 3 3 err_warn
          (Wavefunction_1D__init__ (WaveformArray [:: 0; 0; 0 : algC]))
          [:: 1; 2; 3 : algC] 1%:M 0 (erefl _) zero_wave_overlaps).
Defined.

Lemma one_hot_choice :
  np_random_choice [:: 0; 1; 2]%N (one_hot algC) 0 =
  Ok (nth 0%N [:: 0; 1; 2]%N (choice_index (one_hot algC) 0)).
Proof.
apply: np_random_choiceE => //.
- by rewrite /nonneg /= lexx ler01.
- by rewrite /np_sum /one_hot !big_cons big_nil !addr0 add0r.
- exact: zero_is_a_variate.
Qed.

Lemma choice_never_draws_zero_weight_witness :
  exists k, [/\ (k < 3)%N,
                nth 0%N [:: 0; 1; 2]%N (choice_index (one_hot algC) 0) =
                nth (nth 0%N [:: 0; 1; 2]%N (choice_index (one_hot algC) 0))
                    [:: 0; 1; 2]%N k
              & 0 < nth 0 (one_hot algC) k].
Proof.
exact: (@choice_never_draws_zero_weight algC nat [:: 0; 1; 2]%N
          (one_hot algC) 0 _ zero_is_a_variate one_hot_choice).
Defined.

Lemma momentum_needs_grid_length_witness :
  ret (expected_momentum 3 (fun=> 1) err_warn
         (Wavefunction_1D__init__ (WaveformArray (one_hot algC)))) =
  Raise ValueError /\
  set_to_momentum_eigenstate 3 (fun=> 1) err_warn
    (Wavefunction_1D__init__ (WaveformArray (one_hot algC))) 0 =
  Run (Raise ValueError)
      (Fin (Wavefunction_1D__init__ (WaveformArray (one_hot algC)))) [::].
Proof.
have Hdx : Constants.dx (Constants__init__ algC) != 0.
  by rewrite /Constants__init__ /= mulf_neq0 ?oner_neq0 // invr_eq0 pnatr_eq0.
exact: (@momentum_needs_grid_length algC 3 (fun=> 1) err_warn
          (Wavefunction_1D__init__ (WaveformArray (one_hot algC))) 0
          isT isT Hdx (oner_neq0 _)).
Defined.
